(** * opencode-puter-auth: the retry engine and the API client

    A shallow embedding of [src/retry.ts] and [src/client.ts].

    Conventions of the embedding:
    - a JavaScript string is a [string]: a sequence of code units, here the
      code units below 256 (Latin-1), on which [toLowerCase] and [trim] are
      written out as ECMAScript defines them;
    - a JavaScript number that the code uses as a count or a status code is a
      [Z]; the delays, which the code multiplies by a fractional factor, are
      rationals [Q]. The arithmetic on them is exact, with no overflow to
      Infinity and no NaN, where the code's is that of IEEE-754 doubles: the
      value of a delay is the code's only where no double operation rounds.
      The theorems below are about which delays are computed, handed to
      [onRetry] and slept, and in which order, not about their values; the
      runs shown are at small integers and binary fractions, where the
      doubles are exact;
    - a thrown value is a [JsValue]; [instanceof Error] is the [VErr]
      constructor;
    - an async function is a state transformer over the outside world that
      returns either a value or a thrown value ([Completion]); timers and
      sleeps take no time, they are recorded;
    - a response stream enters as the successive texts that the
      [TextDecoder] gives for the chunks read;
    - platform primitives that the repository calls but does not define
      ([JSON.parse], [Math.random], [fetch]) are Section variables. *)

From Stdlib Require Import ZArith QArith Qround Qminmax String Ascii List Bool Lia.
From Stdlib Require Import DecimalString.
From stdpp Require Import base option list gmap.
Import ListNotations.

#[global] Arguments String.append !_ _ / : simpl nomatch.

Close Scope Q_scope.
Open Scope Z_scope.
Open Scope string_scope.
Open Scope list_scope.

(** ** JavaScript strings *)

Module JsString.

Definition code (c : ascii) : N := N_of_ascii c.

(** [String.prototype.toLowerCase] on one code unit: A-Z and the Latin-1
    capitals U+00C0..U+00DE except the multiplication sign U+00D7. *)
Definition lower_unit (c : ascii) : ascii :=
  let n := code c in
  if ((65 <=? n) && (n <=? 90))%N
     || ((192 <=? n) && (n <=? 222) && negb (n =? 215))%N
  then ascii_of_N (n + 32)
  else c.

Fixpoint toLowerCase (s : string) : string :=
  match s with
  | EmptyString => EmptyString
  | String c s' => String (lower_unit c) (toLowerCase s')
  end.

(** [s.startsWith(p)] *)
Fixpoint startsWith (s p : string) {struct p} : bool :=
  match p, s with
  | EmptyString, _ => true
  | String _ _, EmptyString => false
  | String a p', String b s' => Ascii.eqb a b && startsWith s' p'
  end.

(** [s.includes(p)]: [p] occurs in [s] at some position. *)
Fixpoint includes (s p : string) : bool :=
  startsWith s p ||
  match s with
  | EmptyString => false
  | String _ s' => includes s' p
  end.

(** ECMAScript WhiteSpace and LineTerminator code units below 256:
    TAB, LF, VT, FF, CR, SP and NBSP. *)
Definition is_white (c : ascii) : bool :=
  let n := code c in
  ((9 <=? n) && (n <=? 13) || (n =? 32) || (n =? 160))%N.

Fixpoint trimStart (s : string) : string :=
  match s with
  | EmptyString => EmptyString
  | String c s' => if is_white c then trimStart s' else s
  end.

(** Drops trailing white space: a white unit is kept only when something
    that survives follows it. *)
Fixpoint trimEnd (s : string) : string :=
  match s with
  | EmptyString => EmptyString
  | String c s' =>
      match trimEnd s' with
      | EmptyString => if is_white c then EmptyString else String c EmptyString
      | t => String c t
      end
  end.

Definition trim (s : string) : string := trimEnd (trimStart s).

(** Truthiness of a string: the empty string is the only falsy one. *)
Definition truthy (s : string) : bool :=
  match s with EmptyString => false | _ => true end.

Definition LF : ascii := ascii_of_N 10.

(** The one-unit string holding a double quote. *)
Definition DQ : string := String (ascii_of_N 34) EmptyString.

(** [s.split('\n')]: the fragments between line feeds; never empty. *)
Fixpoint split_lines (s : string) : list string :=
  match s with
  | EmptyString => [EmptyString]
  | String c s' =>
      if Ascii.eqb c LF then EmptyString :: split_lines s'
      else match split_lines s' with
           | [] => [String c EmptyString]
           | h :: t => String c h :: t
           end
  end.

(** [String(n)] for an integer [n]: its decimal numeral. *)
Definition of_Z (n : Z) : string := NilZero.string_of_int (Z.to_int n).

End JsString.

Import JsString.

(** ** JavaScript values that can be thrown, and completions *)

Module Js.

(** An [Error] object. [RetryError] is the subclass of [retry.ts]: its
    constructor sets [name] to 'RetryError' and keeps the attempt count and
    the last underlying error. *)
Inductive JsError : Type :=
| PlainError (name message : string)
| RetryError (message : string) (attempts : Z) (lastError : JsError).

Definition error_name (e : JsError) : string :=
  match e with
  | PlainError n _ => n
  | RetryError _ _ _ => "RetryError"
  end.

Definition error_message (e : JsError) : string :=
  match e with
  | PlainError _ m => m
  | RetryError m _ _ => m
  end.

(** [new Error(message)] *)
Definition new_Error (message : string) : JsError := PlainError "Error" message.

(** What a [throw] can carry. [VObject repr] is an object that is not an
    [Error]; [repr] is what [String(obj)] evaluates to. *)
Inductive JsValue : Type :=
| VUndefined
| VNull
| VBool (b : bool)
| VNumber (n : Z)
| VString (s : string)
| VObject (repr : string)
| VErr (e : JsError).

(** [String(v)] *)
Definition String_ (v : JsValue) : string :=
  match v with
  | VUndefined => "undefined"
  | VNull => "null"
  | VBool true => "true"
  | VBool false => "false"
  | VNumber n => of_Z n
  | VString s => s
  | VObject repr => repr
  | VErr e =>
      match error_name e, error_message e with
      | n, EmptyString => n
      | EmptyString, m => m
      | n, m => n ++ ": " ++ m
      end
  end.

(** An evaluation either completes normally with a value or throws. *)
Inductive Completion (A : Type) : Type :=
| Normal (a : A)
| Throw (v : JsValue).
Arguments Normal {A} a.
Arguments Throw {A} v.

End Js.

Import Js.

(** ** The retry engine ([src/retry.ts]) *)

Module Retry.

(** [RetryOptions]: every field is optional. [onRetry] is a notification hook
    of type [(attempt, error, delay) => void]: it acts on the outside world
    and completes normally. *)
Record RetryOptions (W : Type) : Type := {
  maxRetries : option Z;
  initialDelay : option Q;
  maxDelay : option Q;
  backoffFactor : option Q;
  jitter : option bool;
  retryableStatuses : option (list Z);
  onRetry : option (Z -> JsError -> Z -> W -> W)
}.
Arguments maxRetries {W} _.
Arguments initialDelay {W} _.
Arguments maxDelay {W} _.
Arguments backoffFactor {W} _.
Arguments jitter {W} _.
Arguments retryableStatuses {W} _.
Arguments onRetry {W} _.
Arguments Build_RetryOptions {W} _ _ _ _ _ _ _.

(** [DEFAULT_RETRY_OPTIONS] *)
Definition DEFAULT_maxRetries : Z := 3.
Definition DEFAULT_initialDelay : Q := 1000.
Definition DEFAULT_maxDelay : Q := 30000.
Definition DEFAULT_backoffFactor : Q := 2.
Definition DEFAULT_jitter : bool := true.
Definition DEFAULT_retryableStatuses : list Z := [429; 500; 502; 503; 504].

(** The options object [{}] that the default parameter supplies. *)
Definition no_options {W : Type} : RetryOptions W :=
  Build_RetryOptions None None None None None None None.

(** [Math.round]: the nearest integer, a tie going up. *)
Definition Math_round (x : Q) : Z := Qfloor (x + (1 # 2))%Q.

(** [Math.pow(base, n)] for a loop index [n], as an exact power: the platform
    gives a double near it. *)
Definition Math_pow (base : Q) (n : nat) : Q := Qpower base (Z.of_nat n).

(** [isRetryableError(error, retryableStatuses)]. The [for] loop over the
    statuses returns at the first match; the chain of [||] over the fixed
    markers follows. *)
Definition isRetryableError (error : JsValue) (retryableStatuses : option (list Z)) : bool :=
  let retryableStatuses := default DEFAULT_retryableStatuses retryableStatuses in
  match error with
  | VErr e =>
      let message := toLowerCase (error_message e) in
      if existsb (fun status =>
                    includes message ("(" ++ of_Z status ++ ")")
                    || includes message ("status " ++ of_Z status))
                 retryableStatuses
      then true
      else if includes message "timeout"
              || includes message "econnreset"
              || includes message "econnrefused"
              || includes message "network"
              || includes message "socket hang up"
              || includes message "rate limit"
              || includes message "too many requests"
      then true
      else false
  | _ => false
  end.

(** What the engine does to the outside world, in order. *)
Inductive Event : Type :=
| EvAttempt (failure : option JsValue)
| EvOnRetry (attempt : Z) (error : JsError) (delay : Z)
| EvSleep (ms : Z).

(** The state an async function runs in: the outside world and the record of
    the engine's own effects. *)
Record State (W : Type) : Type := { world : W; log : list Event }.
Arguments world {W} _.
Arguments log {W} _.
Arguments Build_State {W} _ _.

Definition record {W : Type} (ev : Event) (st : State W) : State W :=
  {| world := world st; log := log st ++ [ev] |}.

Definition M (W A : Type) : Type := State W -> Completion A * State W.

(** How the [for] loop of [withRetry] is left: by its [return], or by its
    condition becoming false (an abrupt [throw] is a [Throw] completion). *)
Inductive LoopExit (T : Type) : Type :=
| Returned (v : T)
| FellThrough (lastError : JsError).
Arguments Returned {T} v.
Arguments FellThrough {T} lastError.

(** The values [attempt] takes in
    [for (let attempt = 0; attempt <= maxRetries; attempt++)]. *)
Definition attempt_indices (maxRetries : Z) : list nat :=
  seq 0 (Z.to_nat (maxRetries + 1)).

(** The status codes that [withRetry] hands to [isRetryableError]: those of
    the options, or the default ones. *)
Definition statuses_of {W : Type} (options : RetryOptions W) : option (list Z) :=
  Some (default DEFAULT_retryableStatuses (retryableStatuses options)).

(** The outcomes of the invocations of the operation that a stretch of the
    record holds, in order: [None] for a success, the thrown value otherwise. *)
Definition attempt_outcomes (evs : list Event) : list (option JsValue) :=
  omap (fun ev => match ev with EvAttempt outcome => Some outcome | _ => None end) evs.

(** How many times the operation was invoked. *)
Definition invocations (evs : list Event) : nat := length (attempt_outcomes evs).

Section Engine.

Variable W : Type.

(** [Math.random()]: a number in [0, 1) drawn from the outside world. *)
Variable Math_random : W -> Q * W.

(** [calculateDelay(attempt, options)], in exact arithmetic. *)
Definition calculateDelay (attempt : nat) (options : RetryOptions W) (w : W) : Z * W :=
  let initialDelay := default DEFAULT_initialDelay (initialDelay options) in
  let maxDelay := default DEFAULT_maxDelay (maxDelay options) in
  let backoffFactor := default DEFAULT_backoffFactor (backoffFactor options) in
  let jitter := default DEFAULT_jitter (jitter options) in
  let baseDelay := (initialDelay * Math_pow backoffFactor attempt)%Q in
  let cappedDelay := Qmin baseDelay maxDelay in
  if jitter then
    let jitterRange := (cappedDelay * (1 # 4))%Q in
    let (r, w') := Math_random w in
    let randomJitter := ((r - (1 # 2)) * 2 * jitterRange)%Q in
    (Z.max 0 (Math_round (cappedDelay + randomJitter)%Q), w')
  else (Math_round cappedDelay, w).

Variable T : Type.

(** The wrapped operation: each invocation acts on the world and either
    resolves or rejects. *)
Variable operation : W -> Completion T * W.

Definition invoke_operation : M W T :=
  fun st =>
    match operation (world st) with
    | (Normal v, w') => (Normal v, {| world := w'; log := log st ++ [EvAttempt None] |})
    | (Throw error, w') =>
        (Throw error, {| world := w'; log := log st ++ [EvAttempt (Some error)] |})
    end.

(** [error instanceof Error ? error : new Error(String(error))] *)
Definition to_Error (error : JsValue) : JsError :=
  match error with
  | VErr e => e
  | _ => new_Error (String_ error)
  end.

Section Loop.

Variable maxRetries : Z.
Variable options : RetryOptions W.

(** What the [catch] block does once it has decided to retry: compute the
    delay, call [onRetry] when there is one, and sleep. The callback is one
    that returns: it acts on the world and throws nothing. *)
Definition before_retry (attempt : nat) (lastError : JsError) (st : State W) : State W :=
  let (delay, w) :=
    calculateDelay attempt
      (Build_RetryOptions None
         (Some (default DEFAULT_initialDelay (initialDelay options)))
         (Some (default DEFAULT_maxDelay (maxDelay options)))
         (Some (default DEFAULT_backoffFactor (backoffFactor options)))
         (Some (default DEFAULT_jitter (jitter options)))
         None None)
      (world st) in
  let st := {| world := w; log := log st |} in
  let st :=
    match onRetry options with
    | Some callback =>
        {| world := callback (Z.of_nat attempt + 1) lastError delay (world st);
           log := log st ++ [EvOnRetry (Z.of_nat attempt + 1) lastError delay] |}
    | None => st
    end in
  record (EvSleep delay) st.

(** The body of the [for] loop, run for the given successive values of
    [attempt]. *)
Fixpoint run_attempts (indices : list nat) (lastError : JsError)
  : M W (LoopExit T) :=
  match indices with
  | [] => fun st => (Normal (FellThrough lastError), st)
  | attempt :: rest => fun st =>
      match invoke_operation st with
      | (Normal v, st) => (Normal (Returned v), st)
      | (Throw error, st) =>
          let lastError := to_Error error in
          let isLastAttempt := (Z.of_nat attempt =? maxRetries)%Z in
          let shouldRetry :=
            negb isLastAttempt
            && isRetryableError error (statuses_of options) in
          if negb shouldRetry then (Throw (VErr lastError), st)
          else run_attempts rest lastError (before_retry attempt lastError st)
      end
  end.

End Loop.

(** [withRetry(operation, options)] *)
Definition withRetry (options : RetryOptions W) : M W T :=
  fun st =>
    let maxRetries := default DEFAULT_maxRetries (maxRetries options) in
    let lastError := new_Error "Unknown error" in
    match run_attempts maxRetries options (attempt_indices maxRetries) lastError st with
    | (Normal (Returned v), st') => (Normal v, st')
    | (Normal (FellThrough lastError), st') =>
        (Throw (VErr (RetryError
                        ("Operation failed after " ++ of_Z (maxRetries + 1) ++ " attempts")
                        (maxRetries + 1) lastError)), st')
    | (Throw v, st') => (Throw v, st')
    end.

End Engine.

End Retry.

Import Retry.

(** ** JSON data *)

Module Json.

(** A value that [JSON.parse] or [response.json()] can produce, or that an
    object or array literal of the client denotes. *)
#[warnings="-register-all"]
Inductive json : Type :=
| JNull
| JBool (b : bool)
| JNum (q : Q)
| JStr (s : string)
| JArr (items : list json)
| JObj (fields : list (string * json)).

(** A JavaScript expression value is a [json] or [undefined] ([None]). *)
Definition value : Type := option json.

Fixpoint field (fields : list (string * json)) (key : string) : value :=
  match fields with
  | [] => None
  | (k, v) :: rest => if String.eqb k key then Some v else field rest key
  end.

(** [v.key] for one of the keys the client reads ([done], [models],
    [result], [message], [content]): the outer [None] is the [TypeError] that
    reading a property of [null] or [undefined] raises; objects give their
    field, every other value gives [undefined]. *)
Definition get (v : value) (key : string) : option value :=
  match v with
  | None => None
  | Some JNull => None
  | Some (JObj fields) => Some (field fields key)
  | Some _ => Some None
  end.

(** Truthiness: [undefined], [null], [false], [0] and [''] are falsy. *)
Definition truthy (v : value) : bool :=
  match v with
  | None => false
  | Some JNull => false
  | Some (JBool b) => b
  | Some (JNum q) => negb (Qeq_bool q 0)
  | Some (JStr s) => JsString.truthy s
  | Some (JArr _) => true
  | Some (JObj _) => true
  end.

(** [a || b] *)
Definition or_else (a b : value) : value := if truthy a then a else b.

End Json.

Import Json.

(** ** The API client ([src/client.ts]) *)

Module Client.

Definition DEFAULT_API_URL : string := "https://api.puter.com".
Definition DEFAULT_TIMEOUT : Z := 120000.
Definition DEFAULT_MAX_RETRIES : Z := 3.
Definition DEFAULT_RETRY_DELAY : Z := 1000.

(** [Partial<PuterConfig>]: the fields the client reads. *)
Record PuterConfig : Type := {
  api_base_url : option string;
  api_timeout_ms : option Z;
  max_retries : option Z;
  retry_delay_ms : option Z;
  debug : option bool
}.

(** The object literal [{}]. *)
Definition empty_config : PuterConfig :=
  {| api_base_url := None; api_timeout_ms := None; max_retries := None;
     retry_delay_ms := None; debug := None |}.

#[export] Instance PuterConfig_inhabited : Inhabited PuterConfig := populate empty_config.

(** Config objects live in a store and are held by reference: the caller's
    object and [this.config] are the same location. *)
Definition loc : Type := positive.
Abbreviation Heap := (gmap loc PuterConfig).

Record PuterClient : Type := {
  authToken : string;
  config : loc;
  this_debug : bool
}.

(** [new PuterClient(authToken, config = {})] *)
Definition constructor (authToken : string) (config : option loc) (h : Heap)
  : PuterClient * Heap :=
  match config with
  | Some l =>
      ({| authToken := authToken; config := l;
          this_debug := default false (debug (h !!! l)) |}, h)
  | None =>
      let l := fresh (dom h) in
      ({| authToken := authToken; config := l;
          this_debug := default false (debug empty_config) |},
       <[l := empty_config]> h)
  end.

(** [setAuthToken(token)] *)
Definition setAuthToken (this : PuterClient) (token : string) : PuterClient :=
  {| authToken := token; config := config this; this_debug := this_debug this |}.

(** [get apiUrl()]: [this.config.api_base_url || DEFAULT_API_URL] *)
Definition apiUrl (this : PuterClient) (h : Heap) : string :=
  match api_base_url (h !!! config this) with
  | Some s => if JsString.truthy s then s else DEFAULT_API_URL
  | None => DEFAULT_API_URL
  end.

(** [get timeout()]: [this.config.api_timeout_ms || DEFAULT_TIMEOUT] *)
Definition timeout (this : PuterClient) (h : Heap) : Z :=
  match api_timeout_ms (h !!! config this) with
  | Some n => if (n =? 0)%Z then DEFAULT_TIMEOUT else n
  | None => DEFAULT_TIMEOUT
  end.

Record PuterChatMessage : Type := { role : string; content : string }.

Record PuterChatOptions : Type := {
  model : option string;
  max_tokens : option Z;
  temperature : option Q;
  tools : option (list json)
}.

Definition no_chat_options : PuterChatOptions :=
  {| model := None; max_tokens := None; temperature := None; tools := None |}.

(** The fixed probe of [testConnection]. *)
Definition probe_messages : list PuterChatMessage :=
  [{| role := "user"; content := "Say " ++ DQ ++ "OK" ++ DQ ++ " and nothing else." |}].
Definition probe_options : PuterChatOptions :=
  {| model := Some "gpt-5-nano"; max_tokens := Some 10; temperature := None;
     tools := None |}.

(** The [args] of a driver call. *)
Record ChatArgs : Type := {
  arg_messages : list PuterChatMessage;
  arg_model : string;
  arg_stream : bool;
  arg_max_tokens : option Z;
  arg_temperature : option Q;
  arg_tools : option (list json)
}.

(** The JSON body of a POST to [/drivers/call]. *)
Record DriverCall : Type := {
  call_interface : string;
  call_service : string;
  call_method : string;
  call_args : ChatArgs;
  call_auth_token : string
}.

(** A call of [fetch]. [req_deadline] is the delay of the timer that aborts
    the [signal] passed with the request, when one is passed. *)
Record Request : Type := {
  req_url : string;
  req_method : string;
  req_headers : list (string * string);
  req_body : option DriverCall;
  req_deadline : option Z
}.

(** A response body as its reader delivers it: the successive texts that
    [decoder.decode(value, { stream: true })] gives for the chunks read, then
    either the end of the stream or a rejected [read()]. *)
Record Body : Type := {
  pieces : list string;
  read_failure : option JsValue
}.

Record Response : Type := {
  ok : bool;
  status : Z;
  text : Completion string;
  json_body : Completion json;
  body : option Body
}.

Record PuterModelInfo : Type := {
  id : string;
  name : string;
  provider : string;
  context_window : Z;
  max_output_tokens : Z;
  supports_streaming : bool;
  supports_tools : bool;
  supports_vision : bool
}.

(** The object literal of a model entry. *)
Definition model_object (m : PuterModelInfo) : json :=
  JObj [("id", JStr (id m)); ("name", JStr (name m)); ("provider", JStr (provider m));
        ("context_window", JNum (inject_Z (context_window m)));
        ("max_output_tokens", JNum (inject_Z (max_output_tokens m)));
        ("supports_streaming", JBool (supports_streaming m));
        ("supports_tools", JBool (supports_tools m));
        ("supports_vision", JBool (supports_vision m))].

Definition claude (id name : string) : PuterModelInfo :=
  {| id := id; name := name; provider := "anthropic"; context_window := 200000;
     max_output_tokens := 64000; supports_streaming := true; supports_tools := true;
     supports_vision := true |}.

Definition gpt (id name : string) (max_output : Z) (vision : bool) : PuterModelInfo :=
  {| id := id; name := name; provider := "openai"; context_window := 128000;
     max_output_tokens := max_output; supports_streaming := true; supports_tools := true;
     supports_vision := vision |}.

Definition gemini (id name : string) : PuterModelInfo :=
  {| id := id; name := name; provider := "google"; context_window := 1000000;
     max_output_tokens := 65536; supports_streaming := true; supports_tools := true;
     supports_vision := true |}.

(** [getDefaultModels()] *)
Definition getDefaultModels : list PuterModelInfo :=
  [ claude "claude-opus-4-5" "Claude Opus 4.5";
    claude "claude-sonnet-4-5" "Claude Sonnet 4.5";
    claude "claude-sonnet-4" "Claude Sonnet 4";
    claude "claude-haiku-4-5" "Claude Haiku 4.5";
    gpt "gpt-5-nano" "GPT-5 Nano" 16384 true;
    gpt "gpt-5.2" "GPT-5.2" 32768 true;
    gpt "gpt-4o" "GPT-4o" 16384 true;
    gpt "o3-mini" "o3-mini" 32768 false;
    gemini "gemini-2.5-pro" "Gemini 2.5 Pro";
    gemini "gemini-2.5-flash" "Gemini 2.5 Flash" ].

(** [a.pop()]: the array without its last element, and that element. *)
Definition pop {A : Type} (a : list A) : list A * option A :=
  (removelast a, last a).

(** What a run of the generator [chatStream] produces when its consumer pulls
    until the end: the chunks yielded in order, the number of [reader.read()]
    calls made, and how the generator finished. *)
Record StreamRun : Type := {
  yielded : list json;
  reads : nat;
  finish : Completion unit
}.

Section Methods.

Variable W : Type.

(** Platform primitives. [JSON_parse] gives [None] where [JSON.parse] throws
    its [SyntaxError]; [TypeError_reading key] is the error the engine raises
    for reading [key] of [null] or [undefined]. *)
Variable Math_random : W -> Q * W.
Variable fetch : Request -> W -> Completion Response * W.
Variable console_warn : string -> W -> W.
Variable JSON_parse : string -> option json.
Variable TypeError_reading : string -> JsError.

Variable this : PuterClient.

(** The store as it is when the method is called. *)
Variable h : Heap.

(** [get retryOptions()] *)
Definition retryOptions : RetryOptions W :=
  {| maxRetries := Some (default DEFAULT_MAX_RETRIES (max_retries (h !!! config this)));
     initialDelay :=
       Some (inject_Z (default DEFAULT_RETRY_DELAY (retry_delay_ms (h !!! config this))));
     maxDelay := None;
     backoffFactor := None;
     jitter := None;
     retryableStatuses := None;
     onRetry :=
       if this_debug this
       then Some (fun attempt error delay =>
                    console_warn ("[PuterClient] Retry " ++ of_Z attempt ++ ": "
                                  ++ error_message error
                                  ++ " (waiting " ++ of_Z delay ++ "ms)"))
       else None |}.

Definition driver_call (method : string) (args : ChatArgs) : Request :=
  {| req_url := apiUrl this h ++ "/drivers/call";
     req_method := "POST";
     req_headers := [("Content-Type", "application/json")];
     req_body := Some {| call_interface := "puter-chat-completion";
                         call_service := "ai-chat";
                         call_method := method;
                         call_args := args;
                         call_auth_token := authToken this |};
     req_deadline := Some (timeout this h) |}.

(** The operation that [makeRequest] hands to [withRetry]. *)
Definition makeRequest_operation (method : string) (args : ChatArgs)
  : W -> Completion json * W :=
  fun w =>
    match fetch (driver_call method args) w with
    | (Throw e, w') => (Throw e, w')
    | (Normal response, w') =>
        if negb (ok response) then
          match text response with
          | Throw e => (Throw e, w')
          | Normal errorText =>
              (Throw (VErr (new_Error ("Puter API error (" ++ of_Z (status response)
                                       ++ "): " ++ errorText))), w')
          end
        else
          match json_body response with
          | Throw e => (Throw e, w')
          | Normal data => (Normal data, w')
          end
    end.

(** [makeRequest(method, args)] *)
Definition makeRequest (method : string) (args : ChatArgs) : M W json :=
  withRetry W Math_random json (makeRequest_operation method args) retryOptions.

Definition chat_args (messages : list PuterChatMessage) (options : PuterChatOptions)
  (stream : bool) : ChatArgs :=
  {| arg_messages := messages;
     arg_model := match model options with
                  | Some m => if JsString.truthy m then m else "gpt-5-nano"
                  | None => "gpt-5-nano"
                  end;
     arg_stream := stream;
     arg_max_tokens := max_tokens options;
     arg_temperature := temperature options;
     arg_tools := tools options |}.

(** [chat(messages, options)]: the request, then [response.result]. *)
Definition chat (messages : list PuterChatMessage) (options : PuterChatOptions)
  : M W value :=
  fun st =>
    match makeRequest "complete" (chat_args messages options false) st with
    | (Throw e, st') => (Throw e, st')
    | (Normal response, st') =>
        match get (Some response) "result" with
        | None => (Throw (VErr (TypeError_reading "result")), st')
        | Some result => (Normal result, st')
        end
    end.

(** [testConnection()] *)
Definition testConnection : M W bool :=
  fun st =>
    match chat probe_messages probe_options st with
    | (Throw _, st') => (Normal false, st')
    | (Normal response, st') =>
        match get response "message" with
        | None => (Normal false, st')
        | Some message =>
            let content :=
              match message with
              | None | Some JNull => None
              | Some _ => match get message "content" with
                          | Some c => c
                          | None => None
                          end
              end in
            (Normal (truthy content), st')
        end
    end.

(** The operation that [listModels] hands to [withRetry]. *)
Definition listModels_operation : W -> Completion json * W :=
  fun w =>
    match fetch {| req_url := apiUrl this h ++ "/puterai/chat/models/details";
                   req_method := "GET";
                   req_headers := [("Authorization", ("Bearer " ++ authToken this)%string)];
                   req_body := None;
                   req_deadline := None |} w with
    | (Throw e, w') => (Throw e, w')
    | (Normal response, w') =>
        if negb (ok response) then
          (Throw (VErr (new_Error ("Failed to fetch models (" ++ of_Z (status response)
                                   ++ ")"))), w')
        else
          match json_body response with
          | Throw e => (Throw e, w')
          | Normal data =>
              match get (Some data) "models" with
              | None => (Throw (VErr (TypeError_reading "models")), w')
              | Some models =>
                  match or_else (or_else models (Some data)) (Some (JArr [])) with
                  | Some result => (Normal result, w')
                  | None => (Normal (JArr []), w')
                  end
              end
          end
    end.

(** [listModels()] *)
Definition listModels : M W json :=
  fun st =>
    match withRetry W Math_random json listModels_operation retryOptions st with
    | (Normal models, st') => (Normal models, st')
    | (Throw _, st') =>
        let st'' :=
          if this_debug this
          then {| world := console_warn "[PuterClient] Failed to fetch models, using defaults"
                             (world st');
                  log := log st' |}
          else st' in
        (Normal (JArr (map model_object getDefaultModels)), st'')
    end.

(** The [for] loop of [chatStream] over the complete lines of one read: the
    chunks it yields, and whether it left the generator by [return]. A
    [TypeError] from [chunk.done] is raised after the [yield] and inside the
    [try], so the [catch] turns it into [continue]. *)
Fixpoint process_lines (lines : list string) : list json * bool :=
  match lines with
  | [] => ([], false)
  | line :: rest =>
      if negb (JsString.truthy (trim line)) then process_lines rest
      else
        match JSON_parse line with
        | None => process_lines rest
        | Some chunk =>
            match get (Some chunk) "done" with
            | Some done =>
                if truthy done then ([chunk], true)
                else let (out, returned) := process_lines rest in (chunk :: out, returned)
            | None => let (out, returned) := process_lines rest in (chunk :: out, returned)
            end
        end
  end.

(** After the [while] loop: [if (buffer.trim()) { try { yield JSON.parse(buffer) } catch {} }] *)
Definition process_remaining (buffer : string) : list json :=
  if JsString.truthy (trim buffer) then
    match JSON_parse buffer with
    | Some chunk => [chunk]
    | None => []
    end
  else [].

(** The [while (true)] loop of [chatStream] and what follows it, over the
    texts the reader still has to deliver. *)
Fixpoint read_loop (pieces : list string) (read_failure : option JsValue)
  (buffer : string) : StreamRun :=
  match pieces with
  | [] =>
      match read_failure with
      | Some e => {| yielded := []; reads := 1; finish := Throw e |}
      | None => {| yielded := process_remaining buffer; reads := 1; finish := Normal tt |}
      end
  | value :: rest =>
      let buffer := (buffer ++ value)%string in
      let lines := split_lines buffer in
      let (lines, popped) := pop lines in
      let buffer := match popped with
                    | Some s => if JsString.truthy s then s else ""
                    | None => ""
                    end in
      let (out, returned) := process_lines lines in
      if returned then {| yielded := out; reads := 1; finish := Normal tt |}
      else
        let run := read_loop rest read_failure buffer in
        {| yielded := out ++ yielded run; reads := S (reads run); finish := finish run |}
  end.

(** The operation that [chatStream] hands to [withRetry]: the connection. *)
Definition chatStream_operation (messages : list PuterChatMessage)
  (options : PuterChatOptions) : W -> Completion Response * W :=
  fun w =>
    match fetch (driver_call "complete" (chat_args messages options true)) w with
    | (Throw e, w') => (Throw e, w')
    | (Normal res, w') =>
        if negb (ok res) then
          match text res with
          | Throw e => (Throw e, w')
          | Normal errorText =>
              (Throw (VErr (new_Error ("Puter API error (" ++ of_Z (status res)
                                       ++ "): " ++ errorText))), w')
          end
        else (Normal res, w')
    end.

(** [chatStream(messages, options)], pulled to its end. *)
Definition chatStream (messages : list PuterChatMessage) (options : PuterChatOptions)
  (st : State W) : StreamRun * State W :=
  match withRetry W Math_random Response (chatStream_operation messages options)
          retryOptions st with
  | (Throw e, st') => ({| yielded := []; reads := 0; finish := Throw e |}, st')
  | (Normal response, st') =>
      match body response with
      | None =>
          ({| yielded := []; reads := 0;
              finish := Throw (VErr (new_Error "No response body for streaming")) |}, st')
      | Some b => (read_loop (pieces b) (read_failure b) "", st')
      end
  end.

End Methods.

End Client.

Import Client.

(** ** The specification's words, for the claims that compare them with the code *)

Module Spec.

(** The fixed transient-network phrase markers. *)
Definition transient_markers : list string :=
  ["timeout"; "econnreset"; "econnrefused"; "network"; "socket hang up";
   "rate limit"; "too many requests"].

(** [msg] contains [pat], compared case-insensitively: some stretch of [msg]
    equals [pat] up to letter case. *)
Definition contains_ci (msg pat : string) : Prop :=
  exists pre mid post,
    msg = (pre ++ mid ++ post)%string /\ toLowerCase mid = toLowerCase pat.

(** The message carries a retryable status code or a transient marker. *)
Definition retryable_message (msg : string) (statuses : list Z) : Prop :=
  (exists N, In N statuses
             /\ (contains_ci msg ("(" ++ of_Z N ++ ")")
                 \/ contains_ci msg ("status " ++ of_Z N)))
  \/ (exists marker, In marker transient_markers /\ contains_ci msg marker).

(** The code units that are white space: tab, line feed, vertical tab, form
    feed, carriage return, space and no-break space. *)
Definition white_space : list N := [9; 10; 11; 12; 13; 32; 160]%N.

Definition white (c : ascii) : bool := existsb (N.eqb (N_of_ascii c)) white_space.

(** A line is blank when it holds white space only. *)
Fixpoint blank (line : string) : bool :=
  match line with
  | EmptyString => true
  | String c rest => white c && blank rest
  end.

(** The complete lines of a text: what precedes each line feed. *)
Definition complete_lines (text : string) : list string :=
  removelast (split_lines text).

(** The partial line after the last line feed. *)
Definition trailing (text : string) : string :=
  default EmptyString (last (split_lines text)).

(** A chunk that ends the stream: its [done] is set. *)
Definition final (chunk : json) : bool :=
  match chunk with
  | JObj fields => truthy (field fields "done")
  | _ => false
  end.

(** The chunks up to and including the first final one, and whether there is
    one. *)
Fixpoint upto_final (chunks : list json) : list json * bool :=
  match chunks with
  | [] => ([], false)
  | chunk :: rest =>
      if final chunk then ([chunk], true)
      else let (out, ended) := upto_final rest in (chunk :: out, ended)
  end.

Section Decode.

Variable JSON_parse : string -> option json.

(** One line of the wire stream gives one chunk, when it is not blank and
    parses. *)
Definition parse_line (line : string) : option json :=
  if blank line then None else JSON_parse line.

(** The chunks of the complete lines, which end at the first final chunk. *)
Definition scan (text : string) : list json * bool :=
  upto_final (omap parse_line (complete_lines text)).

(** The chunk sequence of a whole stream text: each complete non-blank line
    that parses gives its chunk, in order, up to the first final chunk; when
    there is none, the remaining partial line gives a last chunk if it is not
    blank and parses. *)
Definition decode (text : string) : list json :=
  let (out, ended) := scan text in
  if ended then out else out ++ option_list (parse_line (trailing text)).

(** The chunk sequence of a stream given by its lines: [lines] are the
    complete lines, in order, and [partial] is what follows the last line
    feed. Each complete line that is not blank and parses gives its chunk, up
    to the first final chunk; when there is none, [partial] gives a last
    chunk if it is not blank and parses. *)
Definition chunks_of (lines : list string) (partial : string) : list json :=
  let (out, ended) := upto_final (omap parse_line lines) in
  if ended then out else out ++ option_list (parse_line partial).

End Decode.

(** A response carries assistant content when its [message] has a [content]
    that is truthy; for a string, which is what [PuterChatResponse] declares,
    that is a non-empty one. *)
Definition carries_content (response : value) : Prop :=
  exists message content,
    get response "message" = Some (Some message)
    /\ get (Some message) "content" = Some (Some content)
    /\ truthy (Some content) = true.

(** A field of the config resolved against its default: [||] takes the
    default for a missing or falsy value, [??] for a missing one only. *)
Definition resolved_url (cfg : PuterConfig) : string :=
  match api_base_url cfg with
  | Some EmptyString | None => DEFAULT_API_URL
  | Some s => s
  end.

Definition resolved_timeout (cfg : PuterConfig) : Z :=
  match api_timeout_ms cfg with
  | Some 0 | None => DEFAULT_TIMEOUT
  | Some n => n
  end.

Definition resolved_max_retries (cfg : PuterConfig) : Z :=
  default DEFAULT_MAX_RETRIES (max_retries cfg).

Definition resolved_retry_delay (cfg : PuterConfig) : Z :=
  default DEFAULT_RETRY_DELAY (retry_delay_ms cfg).

Definition resolved_debug (cfg : PuterConfig) : bool :=
  default false (debug cfg).

(** The text of a whole stream: its pieces, one after the other. *)
Definition whole_text (pieces : list string) : string :=
  fold_right String.append EmptyString pieces.

(** A text that holds no line feed. *)
Fixpoint single_line (s : string) : bool :=
  match s with
  | EmptyString => true
  | String c rest => negb (Ascii.eqb c LF) && single_line rest
  end.

(** The text made of the complete lines [lines], each followed by its line
    feed, and of the unterminated line [partial]. *)
Definition stream_text (lines : list string) (partial : string) : string :=
  fold_right (fun line rest => (line ++ String LF rest)%string) partial lines.

(** [text] consists of the complete lines [lines] and the unterminated line
    [partial]: none of them holds a line feed, and the text is the lines, a
    line feed after each, then [partial]. *)
Definition frames (lines : list string) (partial : string) (text : string) : Prop :=
  Forall (fun line => single_line line = true) lines
  /\ single_line partial = true
  /\ text = stream_text lines partial.

(** The line that ends a stream, and the chunk it denotes. *)
Definition done_line : string := "{" ++ DQ ++ "done" ++ DQ ++ ":true}".
Definition done_chunk : json := JObj [("done", JBool true)].

(** The wire text [line1\nline2\n{"done":true}\n]. *)
Definition wire (line1 line2 : string) : string :=
  line1 ++ String LF (line2 ++ String LF (done_line ++ String LF EmptyString)).

End Spec.

(** ** What a run of the retry loop leaves in the record *)

Module Trace.

(** The delays slept, and the calls of [onRetry], that a stretch of the
    record holds, in order. *)
Definition sleeps (evs : list Event) : list Z :=
  omap (fun ev => match ev with EvSleep ms => Some ms | _ => None end) evs.


(** Whether the options carry an [onRetry] callback. *)
Definition has_callback {W : Type} (options : RetryOptions W) : bool :=
  match onRetry options with Some _ => true | None => false end.

(** What a run has added to the record. *)
Definition new_events {W : Type} (before after : State W) : list Event :=
  drop (length (log before)) (log after).

(** The events of the failures that were retried, each with the delay slept
    after it, the first of them being the failure of attempt [attempt]. *)
Fixpoint retry_events (callback : bool) (attempt : nat) (retried : list (JsValue * Z))
  : list Event :=
  match retried with
  | [] => []
  | (error, delay) :: rest =>
      EvAttempt (Some error)
      :: (if callback
          then [EvOnRetry (Z.of_nat attempt + 1) (to_Error error) delay]
          else [])
      ++ EvSleep delay :: retry_events callback (S attempt) rest
  end.

(** How the loop ended: an invocation resolved, an invocation rejected and
    was not retried, or the loop condition became false. *)
Inductive Ending : Type :=
| Resolved
| Rejected (error : JsValue)
| Exhausted.

Definition ending_events (ending : Ending) : list Event :=
  match ending with
  | Resolved => [EvAttempt None]
  | Rejected error => [EvAttempt (Some error)]
  | Exhausted => []
  end.

(** The options that [withRetry] hands to [calculateDelay]. *)
Definition delay_options {W : Type} (options : RetryOptions W) : RetryOptions W :=
  Build_RetryOptions None
    (Some (default DEFAULT_initialDelay (initialDelay options)))
    (Some (default DEFAULT_maxDelay (maxDelay options)))
    (Some (default DEFAULT_backoffFactor (backoffFactor options)))
    (Some (default DEFAULT_jitter (jitter options)))
    None None.

Section Retried.

Variable W : Type.
Variable Math_random : W -> Q * W.
Variable maxRetries : Z.
Variable options : RetryOptions W.

(** Each retried failure was classified as retryable, was not the failure of
    the last allowed attempt, and was followed by the delay that
    [calculateDelay] gave for its attempt. *)
Fixpoint retried_ok (attempt : nat) (retried : list (JsValue * Z)) : Prop :=
  match retried with
  | [] => True
  | (error, delay) :: rest =>
      isRetryableError error (statuses_of options) = true
      /\ Z.of_nat attempt <> maxRetries
      /\ (exists w, delay = fst (calculateDelay W Math_random attempt (delay_options options) w))
      /\ retried_ok (S attempt) rest
  end.

End Retried.

End Trace.

(** ** [createRetryFetch] ([src/retry.ts]) *)

Module RetryFetch.

(** [statuses.includes(status)] *)
Definition includes_status (statuses : list Z) (status : Z) : bool :=
  existsb (Z.eqb status) statuses.

Section CreateRetryFetch.

Variable W : Type.
Variable Math_random : W -> Q * W.

(** The [fetch] of the platform and what the wrapper reads of its response. *)
Variables Input Init Resp : Type.
Variable response_status : Resp -> Z.
Variable response_statusText : Resp -> string.
Variable fetch : Input -> option Init -> W -> Completion Resp * W.

Variable options : RetryOptions W.

(** The operation that [retryFetch] hands to [withRetry]. An array is truthy,
    so [options.retryableStatuses || DEFAULT] takes the default only when the
    option is missing. *)
Definition retryFetch_operation (input : Input) (init : option Init)
  : W -> Completion Resp * W :=
  fun w =>
    match fetch input init w with
    | (Throw e, w') => (Throw e, w')
    | (Normal response, w') =>
        let retryableStatuses :=
          match retryableStatuses options with
          | Some statuses => statuses
          | None => DEFAULT_retryableStatuses
          end in
        if includes_status retryableStatuses (response_status response)
        then (Throw (VErr (new_Error ("HTTP error (" ++ of_Z (response_status response)
                                      ++ "): " ++ response_statusText response))), w')
        else (Normal response, w')
    end.

(** [createRetryFetch(options)(input, init)] *)
Definition retryFetch (input : Input) (init : option Init) : M W Resp :=
  withRetry W Math_random Resp (retryFetch_operation input init) options.

End CreateRetryFetch.

End RetryFetch.

(** ** How a stream ends *)

Module Framing.

Section Ends.

Variable JSON_parse : string -> option json.

(** What is yielded after the chunks of the complete lines: the chunk of the
    partial line, when the stream closed by itself before any final chunk. *)
Definition last_words (failure : option JsValue) (text : string) : list json :=
  if snd (Spec.scan JSON_parse text) then []
  else match failure with
       | None => option_list (Spec.parse_line JSON_parse (Spec.trailing text))
       | Some _ => []
       end.

(** How the generator finishes: by the rejected read, unless a final chunk
    came before it. *)
Definition ending (failure : option JsValue) (text : string) : Completion unit :=
  if snd (Spec.scan JSON_parse text) then Normal tt
  else match failure with
       | None => Normal tt
       | Some e => Throw e
       end.

End Ends.

(** [lines.join('\n')] *)
Definition join_lines (lines : list string) : string :=
  String.concat (String LF EmptyString) lines.

End Framing.

(** ** Concrete inputs *)

Module Samples.

(** A world with nothing in it, and a random source that always draws 0. *)
Definition start : State unit := {| world := tt; log := [] |}.
Definition draw_zero (w : unit) : Q * unit := (0%Q, w).

(** Another random source: it always draws 0.75. *)
Definition draw_high (w : unit) : Q * unit := ((3 # 4)%Q, w).

(** The options of the test 'should throw after max retries'. *)
Definition two_retries : RetryOptions unit :=
  Build_RetryOptions (Some 2) (Some 1%Q) (Some 5%Q) None (Some false) None None.

(** An operation that always rejects with a server error. *)
Definition server_error (w : unit) : Completion nat * unit :=
  (Throw (VErr (new_Error "Puter API error (500): Server error")), w).

(** An operation that always rejects with a string, not an [Error]. *)
Definition throws_string (w : unit) : Completion nat * unit :=
  (Throw (VString "boom"), w).

(** An operation that rejects with a client error, which is not retried. *)
Definition unauthorized_operation (w : unit) : Completion nat * unit :=
  (Throw (VErr (new_Error "Puter API error (401): Unauthorized")), w).

(** An operation that always rejects with [null]. *)
Definition throws_null (w : unit) : Completion nat * unit := (Throw VNull, w).

(** The test 'should use exponential backoff': the world counts the
    invocations, the first two reject with a server error, the third
    resolves; [onRetry] leaves the world alone. *)
Definition flaky (calls : nat) : Completion string * nat :=
  if (calls <? 2)%nat
  then (Throw (VErr (new_Error "Puter API error (500): Error")), S calls)
  else (Normal "success", S calls).
Definition draw_zero_nat (w : nat) : Q * nat := (0%Q, w).
Definition backoff_options : RetryOptions nat :=
  Build_RetryOptions (Some 3) (Some 100%Q) None (Some 2%Q) (Some false) None
    (Some (fun _ _ _ w => w)).

(** An operation that resolves at once. *)
Definition resolves (w : unit) : Completion nat * unit := (Normal 7%nat, w).

(** A console that drops what it is given. *)
Definition silent (msg : string) (w : unit) : unit := w.

(** A store with one config object, [{}], at location 1; the same object
    after [config.debug = true]. *)
Definition one_config : Heap := {[ 1%positive := empty_config ]}.
Definition debug_on : PuterConfig :=
  {| api_base_url := None; api_timeout_ms := None; max_retries := None;
     retry_delay_ms := None; debug := Some true |}.

(** The client of [client.test.ts]: retries disabled, and a [fetch] that
    always rejects with a 401. *)
Definition no_retries : PuterConfig :=
  {| api_base_url := None; api_timeout_ms := None; max_retries := Some 0;
     retry_delay_ms := None; debug := None |}.
Definition test_store : Heap := {[ 1%positive := no_retries ]}.
Definition test_client : PuterClient :=
  fst (constructor "test-token" (Some 1%positive) test_store).

Definition unauthorized (request : Request) (w : unit) : Completion Response * unit :=
  (Throw (VErr (new_Error "Puter API error (401): Unauthorized")), w).

(** A [fetch] that always answers 200 with the given JSON payload. *)
Definition answers (data : json) (request : Request) (w : unit)
  : Completion Response * unit :=
  (Normal {| ok := true; status := 200; text := Normal EmptyString;
             json_body := Normal data; body := None |}, w).

(** The wording of V8 for a property read on [null]. *)
Definition cannot_read (key : string) : JsError :=
  PlainError "TypeError" ("Cannot read properties of null (reading '" ++ key ++ "')").

Definition reply (content : string) : json :=
  JObj [("result",
         JObj [("message", JObj [("role", JStr "assistant"); ("content", JStr content)])])].

(** Two lines of a stream, and a stand-in for [JSON.parse] that knows them
    and the final line. *)
Definition hello_line : string := "{" ++ DQ ++ "text" ++ DQ ++ ":" ++ DQ ++ "Hel" ++ DQ ++ "}".
Definition world_line : string := "{" ++ DQ ++ "text" ++ DQ ++ ":" ++ DQ ++ "lo" ++ DQ ++ "}".

Definition parse_known (s : string) : option json :=
  if String.eqb s hello_line then Some (JObj [("text", JStr "Hel")])
  else if String.eqb s world_line then Some (JObj [("text", JStr "lo")])
  else if String.eqb s Spec.done_line then Some Spec.done_chunk
  else if String.eqb s "null" then Some JNull
  else None.

End Samples.

(** ** More concrete inputs *)

Module Scenarios.

(** One retry, and the default delays with their jitter. *)
Definition one_retry : RetryOptions unit :=
  Build_RetryOptions (Some 1) None None None None None None.

(** Options that allow no attempt at all. *)
Definition below_zero : RetryOptions unit :=
  Build_RetryOptions (Some (-1)) None None None None None None.

(** A client whose config allows two retries. *)
Definition retrying : PuterConfig :=
  {| api_base_url := None; api_timeout_ms := None; max_retries := Some 2;
     retry_delay_ms := Some 1; debug := None |}.
Definition retrying_store : Heap := {[ 1%positive := retrying ]}.
Definition retrying_client : PuterClient :=
  fst (constructor "test-token" (Some 1%positive) retrying_store).

(** A [fetch] that always answers with an HTTP error. *)
Definition answers_error (status : Z) (errorText : string) (request : Request) (w : unit)
  : Completion Response * unit :=
  (Normal {| ok := false; status := status; text := Normal errorText;
             json_body := Throw (VErr (PlainError "SyntaxError" "Unexpected token"));
             body := None |}, w).

(** A catalog payload [{models: [{id: 'm1'}]}]. *)
Definition one_model : json := JArr [JObj [("id", JStr "m1")]].
Definition catalog : json := JObj [("models", one_model)].

(** The platform [fetch] for [createRetryFetch]: the input is a URL, a
    response is its status and status text. *)
Definition plain_fetch (status : Z) (statusText : string) (input : string)
  (init : option unit) (w : unit) : Completion (Z * string) * unit :=
  (Normal (status, statusText), w).

(** A [fetch] that always answers 200 with a body delivered in two pieces. *)
Definition streamed : Response :=
  {| ok := true; status := 200; text := Normal EmptyString;
     json_body := Throw (VErr (PlainError "SyntaxError" "Unexpected token"));
     body := Some {| pieces := [Samples.hello_line; String LF Spec.done_line];
                     read_failure := None |} |}.
Definition streams (request : Request) (w : unit) : Completion Response * unit :=
  (Normal streamed, w).

(** A stream text cut in two ways. *)
Definition cut_once : list string :=
  [(Samples.hello_line ++ String LF Samples.world_line)%string].
Definition cut_twice : list string :=
  [Samples.hello_line; String LF EmptyString; Samples.world_line].

(** A noisy stream: a blank line and a malformed one between two chunks, and
    an unterminated last line; the reads cut it in the middle of its lines. *)
Definition noisy_lines : list string :=
  [Samples.hello_line; "  "; "oops"; Samples.world_line].
Definition noisy_pieces : list string :=
  [(Samples.hello_line ++ String LF " ")%string;
   (" " ++ String LF "oo")%string;
   ("ps" ++ String LF Samples.world_line ++ String LF "nu")%string;
   "ll"].

End Scenarios.

(** * Properties *)

(** ** Strings *)

Example toLowerCase_runs : toLowerCase "ECONNRESET (Ab1)" = "econnreset (ab1)".
Proof. reflexivity. Qed.

Example split_lines_runs :
  split_lines ("a" ++ String LF ("b" ++ String LF "")) = ["a"; "b"; ""]
  /\ split_lines "" = [""] /\ split_lines ("ab" ++ String LF "c") = ["ab"; "c"].
Proof. repeat split. Qed.

Example trim_runs : trim (" a b " ++ String LF "") = "a b" /\ trim "  " = "".
Proof. split; reflexivity. Qed.

Example of_Z_runs : (of_Z 429, of_Z 0, of_Z (-5)) = ("429", "0", "-5").
Proof. reflexivity. Qed.

Section StringFacts.

Lemma append_nil_r (s : string) : (s ++ "")%string = s.
Proof. induction s as [|c s IH]; simpl; [reflexivity | now rewrite IH]. Qed.

Lemma append_assoc (a b c : string) : ((a ++ b) ++ c = a ++ (b ++ c))%string.
Proof. induction a as [|x a IH]; simpl; [reflexivity | now rewrite IH]. Qed.

Lemma startsWith_spec (s p : string) :
  startsWith s p = true <-> exists post, s = (p ++ post)%string.
Proof.
  revert s. induction p as [|a p IH]; intros s; simpl.
  - split; [intros _; now exists s | reflexivity].
  - destruct s as [|b s].
    + split; [discriminate | intros [post H]; discriminate].
    + rewrite andb_true_iff, IH, Ascii.eqb_eq. split.
      * intros [-> [post ->]]. now exists post.
      * intros [post H]. injection H as -> ->. split; [reflexivity | now exists post].
Qed.

Lemma includes_spec (s p : string) :
  includes s p = true <-> exists pre post, s = (pre ++ p ++ post)%string.
Proof.
  induction s as [|c s IH]; simpl.
  - rewrite orb_false_r. split.
    + destruct p; [intros _; now exists "", "" | discriminate].
    + intros (pre & post & H). destruct pre; [|discriminate].
      destruct p; [reflexivity | discriminate].
  - rewrite orb_true_iff, IH. split.
    + intros [H | (pre & post & ->)].
      * apply (startsWith_spec (String c s) p) in H as [post H].
        exists "", post. exact H.
      * now exists (String c pre), post.
    + intros (pre & post & H). destruct pre as [|c' pre]; simpl in H.
      * left. apply (startsWith_spec (String c s) p). now exists post.
      * right. injection H as -> ->. now exists pre, post.
Qed.

Lemma toLowerCase_app (a b : string) :
  toLowerCase (a ++ b) = (toLowerCase a ++ toLowerCase b)%string.
Proof. induction a as [|x a IH]; simpl; [reflexivity | now rewrite IH]. Qed.

Lemma toLowerCase_split (s a b : string) :
  toLowerCase s = (a ++ b)%string ->
  exists a0 b0, s = (a0 ++ b0)%string /\ toLowerCase a0 = a /\ toLowerCase b0 = b.
Proof.
  revert s. induction a as [|x a IH]; intros s H; simpl in H.
  - exists "", s. auto.
  - destruct s as [|c s]; [discriminate|]. simpl in H. injection H as Hc Hs.
    destruct (IH s Hs) as (a0 & b0 & -> & Ha & Hb).
    exists (String c a0), b0. simpl. rewrite Hc, Ha. auto.
Qed.

(** Searching the lower-cased message for a lower-case pattern is searching
    the message case-insensitively. *)
Lemma includes_lower_ci (msg pat : string) :
  includes (toLowerCase msg) (toLowerCase pat) = true <-> Spec.contains_ci msg pat.
Proof.
  rewrite includes_spec. unfold Spec.contains_ci. split.
  - intros (pre & post & H).
    apply toLowerCase_split in H as (pre0 & rest & -> & Hpre & Hrest).
    apply toLowerCase_split in Hrest as (mid0 & post0 & -> & Hmid & Hpost).
    now exists pre0, mid0, post0.
  - intros (pre & mid & post & -> & Hmid).
    exists (toLowerCase pre), (toLowerCase post).
    now rewrite !toLowerCase_app, Hmid.
Qed.

Lemma toLowerCase_uint (d : Decimal.uint) :
  toLowerCase (NilEmpty.string_of_uint d) = NilEmpty.string_of_uint d.
Proof. induction d; simpl; try reflexivity; now rewrite IHd. Qed.

Lemma toLowerCase_of_Z (n : Z) : toLowerCase (of_Z n) = of_Z n.
Proof.
  unfold of_Z, NilZero.string_of_int, NilZero.string_of_uint.
  destruct (Z.to_int n) as [d | d]; destruct d; try reflexivity;
    simpl; now rewrite toLowerCase_uint.
Qed.

End StringFacts.

(** ** The classifier [isRetryableError] *)

Section Classifier.

Lemma includes_ci (msg pat : string) :
  toLowerCase pat = pat ->
  includes (toLowerCase msg) pat = true <-> Spec.contains_ci msg pat.
Proof. intros H. rewrite <- H at 1. apply includes_lower_ci. Qed.

Lemma parenthesized_lower (N : Z) :
  toLowerCase ("(" ++ of_Z N ++ ")") = ("(" ++ of_Z N ++ ")")%string.
Proof. now rewrite !toLowerCase_app, toLowerCase_of_Z. Qed.

Lemma status_lower (N : Z) :
  toLowerCase ("status " ++ of_Z N) = ("status " ++ of_Z N)%string.
Proof. now rewrite toLowerCase_app, toLowerCase_of_Z. Qed.

Lemma markers_lower (marker : string) :
  In marker Spec.transient_markers -> toLowerCase marker = marker.
Proof.
  unfold Spec.transient_markers. simpl.
  intros H; repeat (destruct H as [<- | H]; [reflexivity|]); destruct H.
Qed.

(** The two loops of the classifier as one disjunction. *)
Lemma isRetryableError_unfold (e : JsError) (statuses : list Z) :
  isRetryableError (VErr e) (Some statuses)
  = existsb (fun status =>
               includes (toLowerCase (error_message e)) ("(" ++ of_Z status ++ ")")
               || includes (toLowerCase (error_message e)) ("status " ++ of_Z status))
            statuses
    || existsb (includes (toLowerCase (error_message e))) Spec.transient_markers.
Proof.
  unfold isRetryableError. simpl default.
  destruct (existsb _ statuses); [reflexivity|].
  unfold Spec.transient_markers. simpl existsb. rewrite orb_false_r, !orb_assoc.
  now destruct (_ || _).
Qed.

Lemma isRetryableError_Error (e : JsError) (statuses : list Z) :
  isRetryableError (VErr e) (Some statuses) = true
  <-> Spec.retryable_message (error_message e) statuses.
Proof.
  rewrite isRetryableError_unfold, orb_true_iff, !existsb_exists.
  unfold Spec.retryable_message. split.
  - intros [(N & HN & H) | (marker & Hm & H)]; [left | right].
    + exists N. split; [exact HN|]. apply orb_true_iff in H as [H | H].
      * left. now apply includes_ci; [apply parenthesized_lower|].
      * right. now apply includes_ci; [apply status_lower|].
    + exists marker. split; [exact Hm|].
      now apply includes_ci; [apply markers_lower|].
  - intros [(N & HN & H) | (marker & Hm & H)]; [left | right].
    + exists N. split; [exact HN|]. apply orb_true_iff. destruct H as [H | H].
      * left. now apply includes_ci; [apply parenthesized_lower|].
      * right. now apply includes_ci; [apply status_lower|].
    + exists marker. split; [exact Hm|].
      now apply includes_ci; [apply markers_lower|].
Qed.

Lemma contains_ci_lower (msg pat pat' : string) :
  toLowerCase pat = toLowerCase pat' ->
  Spec.contains_ci msg pat -> Spec.contains_ci msg pat'.
Proof.
  intros H (pre & mid & post & -> & Hmid).
  exists pre, mid, post. split; [reflexivity | congruence].
Qed.

(** C6: [isRetryableError(error, retryableStatuses)] is true exactly when
    [error] is an [Error] whose message contains, compared
    case-insensitively, "(N)" or "status N" for some N of
    [retryableStatuses], or one of the fixed markers timeout, econnreset,
    econnrefused, network, socket hang up, rate limit, too many requests.
    With the default statuses it is true for the messages that contain
    "(429)", "(500)", "timeout", "ECONNRESET" or "rate limit", false for the
    messages "(401)" and "(404)" (alone or as the client words them), and
    false for every input that is not an [Error], such as [null],
    [undefined] and plain strings. *)
Theorem isRetryableError_exactly :
  (forall error statuses,
      isRetryableError error (Some statuses) = true
      <-> exists e, error = VErr e
                    /\ Spec.retryable_message (error_message e) statuses)
  /\ (forall error,
         isRetryableError error None
         = isRetryableError error (Some [429; 500; 502; 503; 504]))
  /\ (forall e pat,
         In pat ["(429)"; "(500)"; "timeout"; "ECONNRESET"; "rate limit"] ->
         Spec.contains_ci (error_message e) pat ->
         isRetryableError (VErr e) None = true)
  /\ (forall msg,
         In msg ["(401)"; "(404)"; "Puter API error (401): Unauthorized";
                 "Puter API error (404): Not found"] ->
         isRetryableError (VErr (new_Error msg)) None = false)
  /\ (forall v statuses, (forall e, v <> VErr e) -> isRetryableError v statuses = false)
  /\ isRetryableError VNull None = false
  /\ isRetryableError VUndefined None = false
  /\ (forall s, isRetryableError (VString s) None = false).
Proof.
  repeat apply conj.
  - intros error statuses. split.
    + intros H. destruct error; try discriminate H.
      exists e. split; [reflexivity|]. now apply isRetryableError_Error.
    + intros (e & -> & H). now apply isRetryableError_Error.
  - reflexivity.
  - intros e pat Hpat H.
    change (isRetryableError (VErr e) (Some [429; 500; 502; 503; 504]) = true).
    apply isRetryableError_Error. simpl in Hpat.
    destruct Hpat as [<- | [<- | [<- | [<- | [<- | []]]]]].
    + left. exists 429. split; [simpl; tauto | left; exact H].
    + left. exists 500. split; [simpl; tauto | left; exact H].
    + right. exists "timeout". split; [simpl; tauto | exact H].
    + right. exists "econnreset". split; [simpl; tauto|].
      now apply (contains_ci_lower _ "ECONNRESET").
    + right. exists "rate limit". split; [simpl; tauto | exact H].
  - intros msg Hmsg. simpl in Hmsg.
    destruct Hmsg as [<- | [<- | [<- | [<- | []]]]]; vm_compute; reflexivity.
  - intros v statuses Hv. destruct v; try reflexivity. now destruct (Hv e).
  - reflexivity.
  - reflexivity.
  - reflexivity.
Qed.

End Classifier.

(** The loop index takes the values 0, 1, ..., maxRetries, in order. *)
Lemma attempt_indices_spec (maxRetries : Z) (attempt : nat) :
  In attempt (attempt_indices maxRetries) <-> Z.of_nat attempt <= maxRetries.
Proof. unfold attempt_indices. rewrite in_seq. lia. Qed.

Example attempt_indices_runs :
  attempt_indices 2 = [0%nat; 1%nat; 2%nat] /\ attempt_indices 0 = [0%nat]
  /\ attempt_indices (-1) = [].
Proof. repeat split. Qed.

(** ** The retry loop [withRetry] *)

Section RetryEngine.

Context {W T : Type}.
Variable Math_random : W -> Q * W.
Variable operation : W -> Completion T * W.

Local Abbreviation before_retry := (before_retry W Math_random).
Local Abbreviation run_attempts := (run_attempts W Math_random T operation).
Local Abbreviation withRetry := (withRetry W Math_random T operation).

Lemma attempt_outcomes_app (xs ys : list Event) :
  attempt_outcomes (xs ++ ys) = attempt_outcomes xs ++ attempt_outcomes ys.
Proof. unfold attempt_outcomes. apply omap_app. Qed.

Lemma invocations_app (xs ys : list Event) :
  invocations (xs ++ ys) = (invocations xs + invocations ys)%nat.
Proof. unfold invocations. now rewrite attempt_outcomes_app, length_app. Qed.

(** One iteration of the loop. *)
Lemma run_attempts_step maxRetries options attempt rest lastError st :
  run_attempts maxRetries options (attempt :: rest) lastError st
  = match operation (world st) with
    | (Normal v, w) =>
        (Normal (Returned v), {| world := w; log := log st ++ [EvAttempt None] |})
    | (Throw error, w) =>
        let st1 := {| world := w; log := log st ++ [EvAttempt (Some error)] |} in
        if negb (negb (Z.of_nat attempt =? maxRetries)%Z
                 && isRetryableError error (statuses_of options))
        then (Throw (VErr (to_Error error)), st1)
        else run_attempts maxRetries options rest (to_Error error)
               (before_retry options attempt (to_Error error) st1)
    end.
Proof.
  simpl. unfold invoke_operation.
  destruct (operation (world st)) as [[v | error] w]; reflexivity.
Qed.

(** Preparing a retry invokes nothing: it only adds the callback and the
    sleep to the record. *)
Lemma before_retry_log options attempt lastError st :
  exists evs,
    log (before_retry options attempt lastError st) = log st ++ evs
    /\ attempt_outcomes evs = [].
Proof.
  unfold Retry.before_retry.
  destruct (calculateDelay _ _ _ _ _) as [delay w].
  destruct (onRetry options) as [callback|]; simpl.
  - exists [EvOnRetry (Z.of_nat attempt + 1) lastError delay; EvSleep delay].
    split; [now rewrite <- app_assoc | reflexivity].
  - exists [EvSleep delay]. split; reflexivity.
Qed.


Section AlwaysFailing.

Variable options : RetryOptions W.

Hypothesis always_fails :
  forall w, exists error w',
    operation w = (Throw error, w')
    /\ isRetryableError error (statuses_of options) = true.


End AlwaysFailing.


(** Events that are not invocations cannot hide one: a stretch found after
    them starts within what follows them. *)
Lemma split_after_silent (mid pre post rest : list Event) (o : option JsValue) :
  attempt_outcomes mid = [] ->
  pre ++ EvAttempt o :: post = mid ++ rest ->
  exists pre', pre = mid ++ pre' /\ rest = pre' ++ EvAttempt o :: post.
Proof.
  revert pre. induction mid as [|m mid IH]; intros pre Hsilent Heq.
  - exists pre. split; [reflexivity | now rewrite Heq].
  - destruct pre as [|p pre]; simpl in Heq.
    + injection Heq as <- _. discriminate Hsilent.
    + injection Heq as -> Heq. destruct m; try discriminate Hsilent.
      * destruct (IH pre Hsilent Heq) as (pre' & -> & ->). now exists pre'.
      * destruct (IH pre Hsilent Heq) as (pre' & -> & ->). now exists pre'.
Qed.

(** A failure that is not retryable, or that is the one of the last allowed
    attempt, is the last thing the loop records, and the loop throws it. *)
Lemma run_attempts_terminal_failure maxRetries options n :
  forall a lastError st,
    let run := run_attempts maxRetries options (seq a n) lastError st in
    exists evs,
      log (snd run) = log st ++ evs
      /\ forall pre error post,
          evs = pre ++ EvAttempt (Some error) :: post ->
          isRetryableError error (statuses_of options) = false
          \/ Z.of_nat (a + invocations pre) = maxRetries ->
          post = [] /\ fst run = Throw (VErr (to_Error error)).
Proof.
  induction n as [|n IH]; intros a lastError st run; subst run.
  - exists []. split; [now rewrite app_nil_r|].
    intros pre error post H. now destruct pre.
  - cbn [seq]. rewrite run_attempts_step.
    destruct (operation (world st)) as [[v | error0] w].
    + exists [EvAttempt None]. split; [reflexivity|].
      intros pre error post H. destruct pre as [|p [|q pre]]; discriminate H.
    + cbn zeta.
      destruct (negb (negb (Z.of_nat a =? maxRetries)%Z
                      && isRetryableError error0 (statuses_of options))) eqn:Hstop.
      * exists [EvAttempt (Some error0)]. split; [reflexivity|].
        intros pre error post H _. destruct pre as [|p [|q pre]]; try discriminate H.
        injection H as Herror Hpost. subst error0 post. split; reflexivity.
      * apply negb_false_iff, andb_true_iff in Hstop as [Hnotlast Hretry].
        apply negb_true_iff, Z.eqb_neq in Hnotlast.
        set (st1 := {| world := w; log := log st ++ [EvAttempt (Some error0)] |}).
        destruct (before_retry_log options a (to_Error error0) st1) as (mid & Hmid & Hnone).
        destruct (IH (S a) (to_Error error0)
                    (before_retry options a (to_Error error0) st1)) as (evs & Hlog & Hevs).
        exists (EvAttempt (Some error0) :: mid ++ evs). split.
        { rewrite Hlog, Hmid. subst st1. cbn [log]. now rewrite <- !app_assoc. }
        intros pre error post H Hterminal. destruct pre as [|p pre].
        { injection H as <- _. cbn in Hterminal.
          destruct Hterminal as [Hno | Hlast]; [congruence | lia]. }
        injection H as Hp H. subst p.
        destruct (split_after_silent mid pre post evs _ Hnone (eq_sym H)) as (pre' & -> & Hrest).
        apply (Hevs pre' error post Hrest).
        destruct Hterminal as [Hno | Hlast]; [now left | right].
        change (EvAttempt (Some error0) :: mid ++ pre')
          with ([EvAttempt (Some error0)] ++ mid ++ pre') in Hlast.
        rewrite !invocations_app in Hlast. unfold invocations at 2 in Hlast.
        rewrite Hnone in Hlast. cbn in Hlast. lia.
Qed.

(** [withRetry] changes the world and the record exactly as its loop does,
    and rethrows what the loop throws. *)
Lemma withRetry_loop options st :
  let N := default DEFAULT_maxRetries (maxRetries options) in
  let loop := run_attempts N options (attempt_indices N) (new_Error "Unknown error") st in
  snd (withRetry options st) = snd loop
  /\ (forall x, fst loop = Throw x -> fst (withRetry options st) = Throw x)
  /\ (forall v, fst loop = Normal (Returned v) -> fst (withRetry options st) = Normal v).
Proof.
  intros N loop. unfold Retry.withRetry. fold N. fold loop.
  destruct loop as [[[v | lastError] | x] st']; cbn; repeat split; congruence.
Qed.

(** C3, as the code has it: a failure that is not classified as retryable,
    and likewise the failure of the last allowed attempt, ends the run: the
    operation is invoked no further time, and [withRetry] throws the thrown
    value itself when it is an [Error], and otherwise a new [Error] whose
    message is [String(value)]. *)
Theorem withRetry_surfaces_terminal_failure (options : RetryOptions W) (st : State W) :
  let run := withRetry options st in
  exists evs,
    log (snd run) = log st ++ evs
    /\ forall pre error post,
        evs = pre ++ EvAttempt (Some error) :: post ->
        isRetryableError error (statuses_of options) = false
        \/ Z.of_nat (invocations pre) = default DEFAULT_maxRetries (maxRetries options) ->
        post = []
        /\ (forall e, error = VErr e -> fst run = Throw error)
        /\ ((forall e, error <> VErr e) ->
            fst run = Throw (VErr (new_Error (String_ error)))).
Proof.
  intros run. subst run.
  destruct (withRetry_loop options st) as (Hsnd & Hthrow & _).
  destruct (run_attempts_terminal_failure
              (default DEFAULT_maxRetries (maxRetries options)) options
              (Z.to_nat (default DEFAULT_maxRetries (maxRetries options) + 1)) 0%nat
              (new_Error "Unknown error") st) as (evs & Hlog & Hevs).
  exists evs. split; [now rewrite Hsnd|].
  intros pre error post Hsplit Hterminal.
  destruct (Hevs pre error post Hsplit Hterminal) as [-> Hfst].
  apply Hthrow in Hfst. split; [reflexivity|]. split.
  - intros e ->. exact Hfst.
  - intros Hnot. rewrite Hfst. destruct error; try reflexivity. now destruct (Hnot e).
Qed.

(** When the last index is [maxRetries], the loop is left by its [return] or
    by the [throw] of its [catch] block, never by its condition. *)
Lemma run_attempts_leaves maxRetries options k :
  forall a lastError st,
    Z.of_nat (a + k) = maxRetries ->
    let run := run_attempts maxRetries options (seq a (S k)) lastError st in
    (exists v w, fst run = Normal (Returned v)
                 /\ operation w = (Normal v, world (snd run)))
    \/ (exists error w, fst run = Throw (VErr (to_Error error))
                        /\ operation w = (Throw error, world (snd run))).
Proof.
  induction k as [|k IH]; intros a lastError st Hlast run; subst run.
  - cbn [seq]. rewrite run_attempts_step.
    destruct (operation (world st)) as [[v | error] w] eqn:Hop.
    + left. now exists v, (world st).
    + right. cbn zeta. replace (Z.of_nat a =? maxRetries)%Z with true
        by (symmetry; apply Z.eqb_eq; lia).
      cbn. now exists error, (world st).
  - change (seq a (S (S k))) with (a :: seq (S a) (S k)). rewrite run_attempts_step.
    destruct (operation (world st)) as [[v | error] w] eqn:Hop.
    + left. now exists v, (world st).
    + cbn zeta. destruct (negb _).
      * right. now exists error, (world st).
      * apply IH. lia.
Qed.

(** C10: for every operation and every options with maxRetries >= 0, the
    attempt loop of [withRetry] is never left by its condition, so the
    [RetryError] built after the loop is not reached: [withRetry] returns
    what an invocation of the operation returned, or throws, from inside the
    loop, what an invocation threw (made an [Error]). *)
Theorem withRetry_never_falls_through (options : RetryOptions W) (st : State W) :
  let N := default DEFAULT_maxRetries (maxRetries options) in
  0 <= N ->
  let loop := run_attempts N options (attempt_indices N) (new_Error "Unknown error") st in
  let run := withRetry options st in
  (forall lastError, fst loop <> Normal (FellThrough lastError))
  /\ ((exists v w, fst run = Normal v /\ operation w = (Normal v, world (snd run)))
      \/ (exists error w, fst run = Throw (VErr (to_Error error))
                          /\ operation w = (Throw error, world (snd run)))).
Proof.
  intros N HN loop run.
  destruct (withRetry_loop options st) as (Hsnd & Hthrow & Hret).
  fold N in Hsnd, Hthrow, Hret. fold loop in Hsnd, Hthrow, Hret. fold run in Hsnd, Hthrow, Hret.
  assert (Hleaves := run_attempts_leaves N options (Z.to_nat N) 0%nat
                       (new_Error "Unknown error") st).
  replace (seq 0 (S (Z.to_nat N))) with (attempt_indices N) in Hleaves
    by (unfold attempt_indices; f_equal; lia).
  fold loop in Hleaves. specialize (Hleaves ltac:(lia)). cbn zeta in Hleaves.
  destruct Hleaves as [(v & w & Hfst & Hop) | (error & w & Hfst & Hop)].
  - split; [intros lastError; rewrite Hfst; discriminate|].
    left. exists v, w. rewrite Hsnd. split; [now apply Hret | exact Hop].
  - split; [intros lastError; rewrite Hfst; discriminate|].
    right. exists error, w. rewrite Hsnd. split; [now apply Hthrow | exact Hop].
Qed.

(** X7: below zero the loop body never runs and the [RetryError] is thrown. *)
Lemma withRetry_negative (options : RetryOptions W) (st : State W) :
  let N := default DEFAULT_maxRetries (maxRetries options) in
  N < 0 ->
  withRetry options st
  = (Throw (VErr (RetryError ("Operation failed after " ++ of_Z (N + 1) ++ " attempts")
                             (N + 1) (new_Error "Unknown error"))), st).
Proof.
  intros N HN. unfold Retry.withRetry, attempt_indices. fold N.
  replace (Z.to_nat (N + 1)) with 0%nat by lia. reflexivity.
Qed.

End RetryEngine.

(** The run of the test 'should throw after max retries': three invocations,
    with sleeps of 1 and 2 milliseconds between them. *)
Example withRetry_two_retries_run :
  withRetry unit Samples.draw_zero nat Samples.server_error Samples.two_retries Samples.start
  = (Throw (VErr (new_Error "Puter API error (500): Server error")),
     {| world := tt;
        log := [EvAttempt (Some (VErr (new_Error "Puter API error (500): Server error")));
                EvSleep 1;
                EvAttempt (Some (VErr (new_Error "Puter API error (500): Server error")));
                EvSleep 2;
                EvAttempt (Some (VErr (new_Error "Puter API error (500): Server error")))] |}).
Proof. vm_compute. reflexivity. Qed.


(** The test 'should use exponential backoff': three invocations, [onRetry]
    called with attempts 1 and 2 and delays 100 and 200. *)
Example withRetry_backoff_run :
  withRetry nat Samples.draw_zero_nat string Samples.flaky Samples.backoff_options
    {| world := 0%nat; log := [] |}
  = (Normal "success",
     {| world := 3%nat;
        log := [EvAttempt (Some (VErr (new_Error "Puter API error (500): Error")));
                EvOnRetry 1 (new_Error "Puter API error (500): Error") 100;
                EvSleep 100;
                EvAttempt (Some (VErr (new_Error "Puter API error (500): Error")));
                EvOnRetry 2 (new_Error "Puter API error (500): Error") 200;
                EvSleep 200;
                EvAttempt None] |}).
Proof. vm_compute. reflexivity. Qed.

(** The test 'should not retry on non-retryable errors': one invocation, and
    the [Error] comes out as it is; a thrown [null] comes out as an [Error]
    whose message is 'null'. *)
Example withRetry_terminal_runs :
  withRetry unit Samples.draw_zero nat Samples.unauthorized_operation no_options
    Samples.start
  = (Throw (VErr (new_Error "Puter API error (401): Unauthorized")),
     {| world := tt;
        log := [EvAttempt (Some (VErr (new_Error "Puter API error (401): Unauthorized")))] |})
  /\ withRetry unit Samples.draw_zero nat Samples.throws_null no_options Samples.start
     = (Throw (VErr (new_Error "null")),
        {| world := tt; log := [EvAttempt (Some VNull)] |}).
Proof. split; vm_compute; reflexivity. Qed.

(** C3 as stated fails: an operation that throws the string 'boom' is invoked
    once, and what [withRetry] throws is not that string but a new [Error]
    whose message is 'boom'. *)
Lemma withRetry_wraps_thrown_string :
  withRetry unit Samples.draw_zero nat Samples.throws_string no_options Samples.start
  = (Throw (VErr (new_Error "boom")),
     {| world := tt; log := [EvAttempt (Some (VString "boom"))] |})
  /\ fst (withRetry unit Samples.draw_zero nat Samples.throws_string no_options
            Samples.start) <> Throw (VString "boom").
Proof. split; [vm_compute; reflexivity | vm_compute; discriminate]. Qed.

Lemma withRetry_never_falls_through_witness :
  0 <= 3
  /\ (forall lastError,
         fst (run_attempts unit Samples.draw_zero nat Samples.resolves 3 no_options
                (attempt_indices 3) (new_Error "Unknown error") Samples.start)
         <> Normal (FellThrough lastError))
  /\ ((exists v w,
          fst (withRetry unit Samples.draw_zero nat Samples.resolves no_options
                 Samples.start) = Normal v
          /\ Samples.resolves w
             = (Normal v,
                world (snd (withRetry unit Samples.draw_zero nat Samples.resolves no_options
                              Samples.start))))
      \/ (exists error w,
             fst (withRetry unit Samples.draw_zero nat Samples.resolves no_options
                    Samples.start) = Throw (VErr (to_Error error))
             /\ Samples.resolves w
                = (Throw error,
                   world (snd (withRetry unit Samples.draw_zero nat Samples.resolves
                                 no_options Samples.start))))).
Proof.
  split; [lia|].
  apply (withRetry_never_falls_through Samples.draw_zero Samples.resolves no_options
           Samples.start).
  simpl. unfold DEFAULT_maxRetries. lia.
Defined.

(** ** Lines of a text *)

Section Lines.

Lemma split_lines_nonempty (s : string) : split_lines s <> [].
Proof.
  destruct s as [|c s]; simpl; [discriminate|].
  destruct (Ascii.eqb c LF); [discriminate|].
  destruct (split_lines s); discriminate.
Qed.

Lemma split_lines_LF (s : string) :
  split_lines (String LF s) = EmptyString :: split_lines s.
Proof. reflexivity. Qed.

Lemma split_lines_other (c : ascii) (s : string) :
  Ascii.eqb c LF = false ->
  exists h t, split_lines s = h :: t /\ split_lines (String c s) = String c h :: t.
Proof.
  intros Hc. simpl. rewrite Hc.
  destruct (split_lines s) as [|h t] eqn:Hs; [now destruct (split_lines_nonempty s)|].
  now exists h, t.
Qed.

Lemma trailing_cons (l : string) (ls : list string) :
  ls <> [] -> default EmptyString (last (l :: ls)) = default EmptyString (last ls).
Proof. destruct ls; [congruence|]. reflexivity. Qed.

Lemma complete_lines_LF (s : string) :
  Spec.complete_lines (String LF s) = EmptyString :: Spec.complete_lines s.
Proof.
  unfold Spec.complete_lines. rewrite split_lines_LF.
  pose proof (split_lines_nonempty s). now destruct (split_lines s).
Qed.

Lemma trailing_LF (s : string) : Spec.trailing (String LF s) = Spec.trailing s.
Proof.
  unfold Spec.trailing. rewrite split_lines_LF.
  apply trailing_cons, split_lines_nonempty.
Qed.

(** Splitting a text in two pieces splits its lines: the complete lines of
    the first piece, then the lines of what was left of it and the second. *)
Lemma split_lines_app (x y : string) :
  split_lines (x ++ y)
  = Spec.complete_lines x ++ split_lines (Spec.trailing x ++ y).
Proof.
  induction x as [|c x IH].
  - reflexivity.
  - destruct (Ascii.eqb c LF) eqn:Hc.
    + apply Ascii.eqb_eq in Hc as ->.
      rewrite complete_lines_LF, trailing_LF. simpl. now rewrite IH.
    + destruct (split_lines_other c x Hc) as (h & t & Hx & Hcx).
      destruct (split_lines_other c (x ++ y) Hc) as (h' & t' & Hxy & Hcxy).
      change (String c x ++ y)%string with (String c (x ++ y)). rewrite Hcxy.
      unfold Spec.complete_lines, Spec.trailing in *. rewrite Hcx. rewrite Hx in IH.
      destruct t as [|h2 t].
      * cbn in IH, Hc |- *. rewrite Hc. rewrite Hxy in IH. now rewrite <- IH.
      * cbn [removelast] in IH |- *. rewrite Hxy in IH.
        change (default EmptyString (last (String c h :: h2 :: t)))
          with (default EmptyString (last (h :: h2 :: t))).
        cbn [app] in IH |- *. injection IH as -> ->. reflexivity.
Qed.

Lemma complete_lines_app (x y : string) :
  Spec.complete_lines (x ++ y)
  = Spec.complete_lines x ++ Spec.complete_lines (Spec.trailing x ++ y).
Proof.
  unfold Spec.complete_lines at 1. rewrite split_lines_app.
  apply removelast_app, split_lines_nonempty.
Qed.

Lemma trailing_app (x y : string) :
  Spec.trailing (x ++ y) = Spec.trailing (Spec.trailing x ++ y).
Proof.
  unfold Spec.trailing at 1. rewrite split_lines_app.
  pose proof (split_lines_nonempty (Spec.trailing x ++ y)) as Hne.
  unfold Spec.trailing at 2.
  destruct (split_lines (Spec.trailing x ++ y)) as [|l ls] using rev_ind; [congruence|].
  now rewrite app_assoc, !last_snoc.
Qed.

(** A text without a line feed is its own and only fragment. *)
Lemma split_lines_single (s : string) :
  Spec.single_line s = true -> split_lines s = [s].
Proof.
  induction s as [|c s IH]; simpl; [reflexivity|].
  intros [Hc Hs]%andb_true_iff. apply negb_true_iff in Hc. rewrite Hc, (IH Hs).
  reflexivity.
Qed.

Lemma split_lines_line (a rest : string) :
  Spec.single_line a = true ->
  split_lines (a ++ String LF rest) = a :: split_lines rest.
Proof.
  induction a as [|c a IH]; simpl; [reflexivity|].
  intros [Hc Ha]%andb_true_iff. apply negb_true_iff in Hc. rewrite Hc, (IH Ha).
  reflexivity.
Qed.

(** What is left after the last line feed holds no line feed. *)
Lemma trailing_single (x : string) : Spec.single_line (Spec.trailing x) = true.
Proof.
  induction x as [|c x IH]; [reflexivity|].
  destruct (Ascii.eqb c LF) eqn:Hc.
  - apply Ascii.eqb_eq in Hc as ->. now rewrite trailing_LF.
  - destruct (split_lines_other c x Hc) as (h & t & Hx & Hcx).
    unfold Spec.trailing in *. rewrite Hcx. rewrite Hx in IH.
    destruct t as [|h2 t].
    + cbn in IH, Hc |- *. now rewrite Hc, IH.
    + exact IH.
Qed.

Lemma complete_lines_single (s : string) :
  Spec.single_line s = true -> Spec.complete_lines s = [].
Proof. intros H. unfold Spec.complete_lines. now rewrite split_lines_single. Qed.

Lemma trailing_of_single (s : string) :
  Spec.single_line s = true -> Spec.trailing s = s.
Proof. intros H. unfold Spec.trailing. now rewrite split_lines_single. Qed.

Lemma split_lines_empty_fragment (s : string) : split_lines s = [EmptyString] -> s = EmptyString.
Proof.
  destruct s as [|c s]; [reflexivity|]. simpl.
  destruct (Ascii.eqb c LF).
  - intros H. injection H as H. now destruct (split_lines_nonempty s).
  - destruct (split_lines s); discriminate.
Qed.

(** A text given by its lines splits into those lines. *)
Lemma split_lines_stream_text (lines : list string) (partial : string) :
  Forall (fun line => Spec.single_line line = true) lines ->
  Spec.single_line partial = true ->
  split_lines (Spec.stream_text lines partial) = lines ++ [partial].
Proof.
  intros Hlines Hpartial. induction Hlines as [|line lines Hline _ IH].
  - now apply split_lines_single.
  - cbn [Spec.stream_text fold_right app]. fold (Spec.stream_text lines partial).
    now rewrite (split_lines_line _ _ Hline), IH.
Qed.

Lemma frames_lines (lines : list string) (partial text : string) :
  Spec.frames lines partial text ->
  Spec.complete_lines text = lines /\ Spec.trailing text = partial.
Proof.
  intros (Hlines & Hpartial & ->). unfold Spec.complete_lines, Spec.trailing.
  rewrite (split_lines_stream_text _ _ Hlines Hpartial), removelast_last, last_snoc.
  auto.
Qed.

Lemma complete_lines_hold_no_LF (text : string) :
  Forall (fun line => Spec.single_line line = true) (Spec.complete_lines text).
Proof.
  unfold Spec.complete_lines. induction text as [|c s IH]; [constructor|].
  destruct (Ascii.eqb c LF) eqn:HLF.
  - apply Ascii.eqb_eq in HLF as ->. rewrite split_lines_LF.
    pose proof (split_lines_nonempty s) as Hne.
    destruct (split_lines s) as [|l ls]; [congruence|]. constructor; [reflexivity|].
    exact IH.
  - destruct (split_lines_other c s HLF) as (l & ls & Hsplit & ->). rewrite Hsplit in IH.
    destruct ls as [|l' ls]; [constructor|].
    cbn [removelast] in IH |- *. inversion IH; subst.
    constructor; [|assumption]. cbn. cbn in HLF. now rewrite HLF.
Qed.

Lemma stream_text_lines (text : string) :
  Spec.stream_text (Spec.complete_lines text) (Spec.trailing text) = text.
Proof.
  induction text as [|c s IH]; [reflexivity|].
  destruct (Ascii.eqb c LF) eqn:HLF.
  - apply Ascii.eqb_eq in HLF as ->. rewrite complete_lines_LF, trailing_LF.
    cbn [Spec.stream_text fold_right append].
    fold (Spec.stream_text (Spec.complete_lines s) (Spec.trailing s)). now rewrite IH.
  - destruct (split_lines_other c s HLF) as (l & ls & Hsplit & Hcs).
    unfold Spec.complete_lines, Spec.trailing in *. rewrite Hcs. rewrite Hsplit in IH.
    destruct ls as [|l' ls].
    + cbn in IH |- *. now rewrite IH.
    + change (default EmptyString (last (String c l :: l' :: ls)))
        with (default EmptyString (last (l :: l' :: ls))).
      cbn [removelast Spec.stream_text fold_right append] in IH |- *. now rewrite IH.
Qed.

(** Every text is made of complete lines and an unterminated line. *)
Lemma frames_text (text : string) :
  Spec.frames (Spec.complete_lines text) (Spec.trailing text) text.
Proof.
  split; [apply complete_lines_hold_no_LF|].
  split; [apply trailing_single|]. symmetry. apply stream_text_lines.
Qed.

End Lines.

(** ** The stream decoder of [chatStream] *)

Section Decoder.

Variable JSON_parse : string -> option json.

Local Abbreviation process_lines := (process_lines JSON_parse).
Local Abbreviation process_remaining := (process_remaining JSON_parse).
Local Abbreviation read_loop := (read_loop JSON_parse).
Local Abbreviation parse_line := (Spec.parse_line JSON_parse).
Local Abbreviation scan := (Spec.scan JSON_parse).
Local Abbreviation decode := (Spec.decode JSON_parse).

(** The white space of [trim] is the white space of a blank line. *)
Lemma is_white_white (c : ascii) : is_white c = Spec.white c.
Proof. destruct c as [[] [] [] [] [] [] [] []]; reflexivity. Qed.

Lemma trimStart_blank (s : string) : Spec.blank s = true -> trimStart s = EmptyString.
Proof.
  induction s as [|c s IH]; [reflexivity|].
  cbn [Spec.blank trimStart]. intros [Hc Hs]%andb_true_iff.
  rewrite is_white_white, Hc. now apply IH.
Qed.

Lemma trimStart_not_blank (s : string) :
  Spec.blank s = false ->
  exists c rest, trimStart s = String c rest /\ is_white c = false.
Proof.
  induction s as [|c s IH]; [discriminate|].
  cbn [Spec.blank trimStart]. rewrite <- is_white_white.
  destruct (is_white c) eqn:Hc; simpl.
  - exact IH.
  - intros _. now exists c, s.
Qed.

(** [line.trim()] is falsy exactly for a blank line. *)
Lemma trim_truthy (s : string) : JsString.truthy (trim s) = negb (Spec.blank s).
Proof.
  unfold trim. destruct (Spec.blank s) eqn:Hb.
  - now rewrite trimStart_blank.
  - destruct (trimStart_not_blank s Hb) as (c & rest & -> & Hc). simpl.
    rewrite Hc. now destruct (trimEnd rest).
Qed.

(** The [if (chunk.done) return] of the loop, a [TypeError] being caught. *)
Lemma done_final (chunk : json) :
  match get (Some chunk) "done" with
  | Some done => truthy done
  | None => false
  end = Spec.final chunk.
Proof. now destruct chunk. Qed.

(** The loop over the lines of one read: each line that is not blank and
    parses gives its chunk, up to the first final chunk. *)
Lemma process_lines_spec (lines : list string) :
  process_lines lines = Spec.upto_final (omap parse_line lines).
Proof.
  induction lines as [|line rest IH]; [reflexivity|].
  cbn [Client.process_lines]. rewrite trim_truthy, negb_involutive.
  change (omap parse_line (line :: rest))
    with (match parse_line line with
          | Some c => c :: omap parse_line rest
          | None => omap parse_line rest
          end).
  unfold Spec.parse_line at 1. destruct (Spec.blank line); [exact IH|].
  destruct (JSON_parse line) as [chunk|]; [|exact IH].
  cbn [Spec.upto_final]. rewrite <- done_final, <- IH.
  destruct (get (Some chunk) "done") as [done|]; [|reflexivity].
  now destruct (truthy done).
Qed.

Lemma process_remaining_spec (buffer : string) :
  process_remaining buffer = option_list (parse_line buffer).
Proof.
  unfold Client.process_remaining, Spec.parse_line. rewrite trim_truthy.
  destruct (Spec.blank buffer); [reflexivity|]. now destruct (JSON_parse buffer).
Qed.

Lemma upto_final_app (xs ys : list json) :
  Spec.upto_final (xs ++ ys)
  = if snd (Spec.upto_final xs) then Spec.upto_final xs
    else (fst (Spec.upto_final xs) ++ fst (Spec.upto_final ys), snd (Spec.upto_final ys)).
Proof.
  induction xs as [|x xs IH]; cbn [app Spec.upto_final].
  - cbn. now destruct (Spec.upto_final ys).
  - destruct (Spec.final x); [reflexivity|]. rewrite IH.
    destruct (Spec.upto_final xs) as [out []]; [reflexivity|]. reflexivity.
Qed.

(** Scanning a text in two pieces: the second piece is scanned after what the
    first left, unless the first piece already held the final chunk. *)
Lemma scan_app (x y : string) :
  scan (x ++ y)
  = if snd (scan x) then scan x
    else (fst (scan x) ++ fst (scan (Spec.trailing x ++ y)),
          snd (scan (Spec.trailing x ++ y))).
Proof.
  unfold Spec.scan. now rewrite complete_lines_app, omap_app, upto_final_app.
Qed.

Lemma scan_single (b : string) : Spec.single_line b = true -> scan b = ([], false).
Proof. intros H. unfold Spec.scan. now rewrite complete_lines_single. Qed.

(** What [buffer = lines.pop() || ''] keeps is the partial line. *)
Lemma kept_buffer (s : string) :
  match last (split_lines s) with
  | Some f => if JsString.truthy f then f else EmptyString
  | None => EmptyString
  end = Spec.trailing s.
Proof.
  unfold Spec.trailing. destruct (last (split_lines s)) as [f|]; [|reflexivity].
  now destruct f.
Qed.

(** One turn of the [while] loop. *)
Lemma read_loop_step (value : string) (rest : list string) failure (buffer : string) :
  read_loop (value :: rest) failure buffer
  = if snd (scan (buffer ++ value))
    then {| yielded := fst (scan (buffer ++ value)); reads := 1; finish := Normal tt |}
    else
      let run := read_loop rest failure (Spec.trailing (buffer ++ value)) in
      {| yielded := fst (scan (buffer ++ value)) ++ yielded run;
         reads := S (reads run);
         finish := finish run |}.
Proof.
  cbn [Client.read_loop]. unfold pop. rewrite kept_buffer, process_lines_spec.
  fold (Spec.complete_lines (buffer ++ value)). fold (scan (buffer ++ value)).
  now destruct (scan (buffer ++ value)) as [out []].
Qed.

(** Reading the pieces one at a time gives the chunks of the whole text. *)
Lemma read_loop_decode (pieces : list string) :
  forall buffer,
    Spec.single_line buffer = true ->
    yielded (read_loop pieces None buffer) = decode (buffer ++ Spec.whole_text pieces)
    /\ finish (read_loop pieces None buffer) = Normal tt.
Proof.
  induction pieces as [|value rest IH]; intros buffer Hbuffer.
  - cbn [Client.read_loop Spec.whole_text fold_right yielded finish].
    rewrite append_nil_r, process_remaining_spec. unfold Spec.decode.
    rewrite (scan_single _ Hbuffer), (trailing_of_single _ Hbuffer). auto.
  - rewrite read_loop_step. cbn [Spec.whole_text fold_right].
    fold (Spec.whole_text rest). rewrite <- append_assoc.
    unfold Spec.decode.
    rewrite (scan_app (buffer ++ value)), (trailing_app (buffer ++ value)).
    destruct (snd (scan (buffer ++ value))) eqn:Hended.
    + destruct (scan (buffer ++ value)) as [out ended]. cbn in Hended |- *.
      subst ended. auto.
    + destruct (IH (Spec.trailing (buffer ++ value)) (trailing_single _)) as [Hy Hf].
      cbn [yielded finish]. rewrite Hy, Hf. unfold Spec.decode.
      destruct (scan (Spec.trailing (buffer ++ value) ++ Spec.whole_text rest))
        as [out' ended'].
      cbn [fst snd]. split; [|reflexivity].
      destruct ended'; [reflexivity | now rewrite app_assoc].
Qed.

(** While no final chunk has come, the loop reads on: after the pieces [pre]
    it is where a fresh loop would be with the partial line as its buffer. *)
Lemma read_loop_prefix (pre rest : list string) failure :
  forall buffer,
    Spec.single_line buffer = true ->
    snd (scan (buffer ++ Spec.whole_text pre)) = false ->
    let run := read_loop rest failure (Spec.trailing (buffer ++ Spec.whole_text pre)) in
    read_loop (pre ++ rest) failure buffer
    = {| yielded := fst (scan (buffer ++ Spec.whole_text pre)) ++ yielded run;
         reads := length pre + reads run;
         finish := finish run |}.
Proof.
  induction pre as [|value pre IH]; intros buffer Hbuffer Hgo run; subst run.
  - cbn [Spec.whole_text fold_right app length]. rewrite append_nil_r.
    rewrite (scan_single _ Hbuffer), (trailing_of_single _ Hbuffer).
    now destruct (read_loop rest failure buffer).
  - cbn [Spec.whole_text fold_right] in Hgo |- *. fold (Spec.whole_text pre) in Hgo |- *.
    rewrite <- append_assoc in Hgo |- *.
    rewrite (scan_app (buffer ++ value)) in Hgo |- *.
    rewrite (trailing_app (buffer ++ value)).
    change ((value :: pre) ++ rest) with (value :: pre ++ rest). rewrite read_loop_step.
    destruct (snd (scan (buffer ++ value))) eqn:Hended; [congruence|].
    cbn [snd fst] in Hgo |- *.
    rewrite (IH (Spec.trailing (buffer ++ value)) (trailing_single _) Hgo).
    cbn [yielded reads finish length]. now rewrite app_assoc.
Qed.

Lemma complete_lines_line (a rest : string) :
  Spec.single_line a = true ->
  Spec.complete_lines (a ++ String LF rest) = a :: Spec.complete_lines rest.
Proof.
  intros Ha. unfold Spec.complete_lines. rewrite (split_lines_line _ _ Ha).
  pose proof (split_lines_nonempty rest). now destruct (split_lines rest).
Qed.

Lemma trailing_line (a rest : string) :
  Spec.single_line a = true -> Spec.trailing (a ++ String LF rest) = Spec.trailing rest.
Proof.
  intros Ha. unfold Spec.trailing. rewrite (split_lines_line _ _ Ha).
  apply trailing_cons, split_lines_nonempty.
Qed.

End Decoder.

(** Without a final chunk every chunk comes out. *)
Lemma upto_final_all (chunks : list json) :
  Forall (fun chunk => Spec.final chunk = false) chunks ->
  Spec.upto_final chunks = (chunks, false).
Proof.
  induction 1 as [|chunk chunks Hchunk _ IH]; [reflexivity|].
  cbn [Spec.upto_final]. now rewrite Hchunk, IH.
Qed.

(** The decoder on a stream given by its lines. *)
Lemma read_loop_chunks_of (JSON_parse : string -> option json)
  (lines : list string) (partial : string) (pieces : list string) :
  Spec.frames lines partial (Spec.whole_text pieces) ->
  yielded (read_loop JSON_parse pieces None EmptyString)
  = Spec.chunks_of JSON_parse lines partial
  /\ finish (read_loop JSON_parse pieces None EmptyString) = Normal tt.
Proof.
  intros [Hlines Hpartial]%frames_lines.
  destruct (read_loop_decode JSON_parse pieces EmptyString eq_refl) as [Hy Hf].
  split; [|exact Hf]. rewrite Hy. cbn [append].
  unfold Spec.decode, Spec.scan, Spec.chunks_of. now rewrite Hlines, Hpartial.
Qed.

(** C4: for every stream input, each complete non-blank line is parsed on its
    own as one chunk, a line that fails to parse is skipped without ending
    the stream or changing the chunks of the other lines, and when the
    transport closes without a final chunk the remaining buffered line, if it
    is not blank and parses, is emitted as a last chunk. Here the stream is
    given by its lines: every text is, in one way only, a list of complete
    lines, each followed by a line feed, and one unterminated line; however
    that text is cut into pieces, the decoder yields the chunk of each
    complete line that is not blank and parses, in order and up to the first
    final chunk, and ends normally; a complete line that gives no chunk
    changes nothing of what is yielded for the others; and without a final
    chunk every complete line gives its chunk and the unterminated line
    gives the last one. *)
Theorem chatStream_decodes_lines (JSON_parse : string -> option json) :
  (forall text,
      exists lines partial,
        Spec.frames lines partial text
        /\ forall lines' partial',
             Spec.frames lines' partial' text -> lines' = lines /\ partial' = partial)
  /\ (forall lines partial pieces,
         Spec.frames lines partial (Spec.whole_text pieces) ->
         let run := read_loop JSON_parse pieces None EmptyString in
         yielded run = Spec.chunks_of JSON_parse lines partial
         /\ finish run = Normal tt)
  /\ (forall before bad after partial pieces pieces',
         Spec.frames (before ++ bad :: after) partial (Spec.whole_text pieces) ->
         Spec.frames (before ++ after) partial (Spec.whole_text pieces') ->
         Spec.parse_line JSON_parse bad = None ->
         yielded (read_loop JSON_parse pieces None EmptyString)
         = yielded (read_loop JSON_parse pieces' None EmptyString))
  /\ (forall lines partial pieces,
         Spec.frames lines partial (Spec.whole_text pieces) ->
         Forall (fun chunk => Spec.final chunk = false)
           (omap (Spec.parse_line JSON_parse) lines) ->
         yielded (read_loop JSON_parse pieces None EmptyString)
         = omap (Spec.parse_line JSON_parse) lines
           ++ option_list (Spec.parse_line JSON_parse partial)).
Proof.
  repeat apply conj.
  - intros text. exists (Spec.complete_lines text), (Spec.trailing text).
    split; [apply frames_text|].
    intros lines' partial' [<- <-]%frames_lines. auto.
  - intros lines partial pieces Hframes. exact (read_loop_chunks_of _ _ _ _ Hframes).
  - intros before bad after partial pieces pieces' Hframes Hframes' Hbad.
    destruct (read_loop_chunks_of JSON_parse _ _ _ Hframes) as [-> _].
    destruct (read_loop_chunks_of JSON_parse _ _ _ Hframes') as [-> _].
    unfold Spec.chunks_of. rewrite !omap_app.
    change (omap (Spec.parse_line JSON_parse) (bad :: after))
      with (match Spec.parse_line JSON_parse bad with
            | Some c => c :: omap (Spec.parse_line JSON_parse) after
            | None => omap (Spec.parse_line JSON_parse) after
            end).
    now rewrite Hbad.
  - intros lines partial pieces Hframes Hnone.
    destruct (read_loop_chunks_of JSON_parse _ _ _ Hframes) as [-> _].
    unfold Spec.chunks_of. now rewrite (upto_final_all _ Hnone).
Qed.

Lemma chatStream_decodes_lines_witness :
  Spec.frames Scenarios.noisy_lines "null" (Spec.whole_text Scenarios.noisy_pieces)
  /\ yielded (read_loop Samples.parse_known Scenarios.noisy_pieces None EmptyString)
     = [JObj [("text", JStr "Hel")]; JObj [("text", JStr "lo")]; JNull]
  /\ finish (read_loop Samples.parse_known Scenarios.noisy_pieces None EmptyString)
     = Normal tt.
Proof.
  assert (Spec.frames Scenarios.noisy_lines "null"
            (Spec.whole_text Scenarios.noisy_pieces)) as Hframes.
  { split; [repeat constructor|]. split; reflexivity. }
  split; [exact Hframes|].
  exact (proj1 (proj2 (chatStream_decodes_lines Samples.parse_known)) _ _ _ Hframes).
Defined.

(** ** The wire stream [line1\nline2\n{"done":true}\n] *)

Section WireStream.

Variable JSON_parse : string -> option json.
Variables line1 line2 : string.
Variables c1 c2 : json.

Hypothesis line1_single : Spec.single_line line1 = true.
Hypothesis line2_single : Spec.single_line line2 = true.
Hypothesis line1_not_blank : Spec.blank line1 = false.
Hypothesis line2_not_blank : Spec.blank line2 = false.
Hypothesis line1_parses : JSON_parse line1 = Some c1.
Hypothesis line2_parses : JSON_parse line2 = Some c2.
Hypothesis c1_not_final : Spec.final c1 = false.
Hypothesis c2_not_final : Spec.final c2 = false.
Hypothesis done_parses : JSON_parse Spec.done_line = Some Spec.done_chunk.

Local Abbreviation read_loop := (read_loop JSON_parse).
Local Abbreviation parse_line := (Spec.parse_line JSON_parse).
Local Abbreviation scan := (Spec.scan JSON_parse).
Local Abbreviation wire := (Spec.wire line1 line2).

Lemma wire_app (rest : string) :
  (wire ++ rest)%string
  = (line1 ++ String LF (line2 ++ String LF (Spec.done_line ++ String LF rest)))%string.
Proof.
  unfold Spec.wire. rewrite append_assoc. cbn [append].
  rewrite append_assoc. cbn [append]. rewrite append_assoc. reflexivity.
Qed.

Lemma done_line_single : Spec.single_line Spec.done_line = true.
Proof. reflexivity. Qed.

Lemma complete_lines_wire (rest : string) :
  Spec.complete_lines (wire ++ rest)
  = line1 :: line2 :: Spec.done_line :: Spec.complete_lines rest.
Proof.
  rewrite wire_app.
  now rewrite (complete_lines_line _ _ line1_single),
    (complete_lines_line _ _ line2_single), (complete_lines_line _ _ done_line_single).
Qed.

Lemma parse_line1 : parse_line line1 = Some c1.
Proof. unfold Spec.parse_line. now rewrite line1_not_blank. Qed.

Lemma parse_line2 : parse_line line2 = Some c2.
Proof. unfold Spec.parse_line. now rewrite line2_not_blank. Qed.

Lemma parse_done_line : parse_line Spec.done_line = Some Spec.done_chunk.
Proof. unfold Spec.parse_line. exact done_parses. Qed.

(** The three chunks, whatever follows the final line. *)
Lemma scan_wire (rest : string) :
  scan (wire ++ rest) = ([c1; c2; Spec.done_chunk], true).
Proof.
  unfold Spec.scan. rewrite complete_lines_wire.
  change (omap parse_line (line1 :: line2 :: Spec.done_line :: Spec.complete_lines rest))
    with (match parse_line line1 with
          | Some c => c :: omap parse_line (line2 :: Spec.done_line :: Spec.complete_lines rest)
          | None => omap parse_line (line2 :: Spec.done_line :: Spec.complete_lines rest)
          end).
  rewrite parse_line1.
  change (omap parse_line (line2 :: Spec.done_line :: Spec.complete_lines rest))
    with (match parse_line line2 with
          | Some c => c :: omap parse_line (Spec.done_line :: Spec.complete_lines rest)
          | None => omap parse_line (Spec.done_line :: Spec.complete_lines rest)
          end).
  rewrite parse_line2.
  change (omap parse_line (Spec.done_line :: Spec.complete_lines rest))
    with (match parse_line Spec.done_line with
          | Some c => c :: omap parse_line (Spec.complete_lines rest)
          | None => omap parse_line (Spec.complete_lines rest)
          end).
  rewrite parse_done_line. cbn [Spec.upto_final].
  now rewrite c1_not_final, c2_not_final.
Qed.

Lemma append_empty (a b : string) : (a ++ b)%string = EmptyString -> b = EmptyString.
Proof. destruct a; [trivial | discriminate]. Qed.

(** Before the line feed that ends the final line has come, no final chunk
    has been seen. *)
Lemma scan_before_end (x s2 : string) :
  (x ++ s2)%string = wire -> s2 <> EmptyString -> snd (scan x) = false.
Proof.
  intros Hwire Hs2. destruct (snd (scan x)) eqn:Hended; [exfalso | reflexivity].
  pose proof (complete_lines_app x s2) as Hlines.
  pose proof (trailing_app x s2) as Htrail.
  rewrite Hwire in Hlines, Htrail.
  pose proof (complete_lines_wire EmptyString) as Hw. rewrite append_nil_r in Hw.
  rewrite Hw in Hlines. cbn in Hlines.
  assert (Spec.trailing wire = EmptyString) as Hwt.
  { rewrite <- (append_nil_r wire), wire_app.
    now rewrite (trailing_line _ _ line1_single), (trailing_line _ _ line2_single),
      (trailing_line _ _ done_line_single). }
  rewrite Hwt in Htrail.
  unfold Spec.scan in Hended.
  destruct (Spec.complete_lines x) as [|l1 [|l2 [|l3 ls]]] eqn:Hx.
  - discriminate Hended.
  - injection Hlines as <- _. cbn in Hended.
    rewrite parse_line1 in Hended. cbn in Hended. now rewrite c1_not_final in Hended.
  - injection Hlines as <- <- _. cbn in Hended.
    rewrite parse_line1, parse_line2 in Hended. cbn in Hended.
    now rewrite c1_not_final, c2_not_final in Hended.
  - injection Hlines as _ _ _ Hrest.
    assert (ls = [] /\ Spec.complete_lines (Spec.trailing x ++ s2) = []) as [_ Hnone].
    { destruct ls; [|discriminate Hrest]. cbn in Hrest. auto. }
    unfold Spec.complete_lines, Spec.trailing in Hnone, Htrail.
    pose proof (split_lines_nonempty (default EmptyString (last (split_lines x)) ++ s2))
      as Hne.
    destruct (split_lines (default EmptyString (last (split_lines x)) ++ s2))
      as [|f [|g fs]] eqn:Hsplit; [congruence | | discriminate Hnone].
    cbn in Htrail. subst f.
    apply split_lines_empty_fragment, append_empty in Hsplit. contradiction.
Qed.

(** C1: for every wire stream whose text is [line1\nline2\n{"done":true}\n],
    where [line1] and [line2] are lines that parse to chunks [c1] and [c2]
    that are not final, and for every way of splitting it into arrival
    pieces, the decoder emits exactly [c1; c2; {done: true}] in that order,
    and it stops at the final chunk: with more text [extra] after the final
    line, and more pieces [unread] (or a failing read) behind, it makes no
    read after the one that completes the final line, and the buffered
    partial line is dropped. *)
Theorem chatStream_decodes_wire :
  (forall pieces rest,
      Spec.whole_text pieces = (wire ++ rest)%string ->
      yielded (read_loop pieces None EmptyString) = [c1; c2; Spec.done_chunk])
  /\ (forall pre s2 extra unread failure,
         (Spec.whole_text pre ++ s2)%string = wire ->
         s2 <> EmptyString ->
         read_loop (pre ++ (s2 ++ extra)%string :: unread) failure EmptyString
         = {| yielded := [c1; c2; Spec.done_chunk];
              reads := length pre + 1;
              finish := Normal tt |}).
Proof.
  split.
  - intros pieces rest Htext.
    destruct (read_loop_decode JSON_parse pieces EmptyString eq_refl) as [-> _].
    cbn [append]. rewrite Htext. unfold Spec.decode. now rewrite scan_wire.
  - intros pre s2 extra unread failure Hwire Hs2.
    pose proof (scan_before_end _ _ Hwire Hs2) as Hgo.
    rewrite (read_loop_prefix JSON_parse pre _ failure EmptyString eq_refl Hgo).
    cbn [append]. rewrite read_loop_step.
    pose proof (scan_app JSON_parse (Spec.whole_text pre) (s2 ++ extra)) as Hscan.
    rewrite <- append_assoc, Hwire, scan_wire, Hgo in Hscan.
    injection Hscan as Hout Hended. rewrite <- Hended. cbn [yielded reads finish].
    now rewrite <- Hout.
Qed.

End WireStream.

(** A run on four pieces cut inside the lines, with text and a piece behind
    the final line that are never looked at. *)
Example read_loop_wire_run :
  read_loop Samples.parse_known
    [ "{" ++ DQ ++ "te";
      "xt" ++ DQ ++ ":" ++ DQ ++ "Hel" ++ DQ ++ "}" ++ String LF Samples.world_line;
      String LF ("{" ++ DQ ++ "done" ++ DQ);
      ":true}" ++ String LF "garbage";
      String LF Samples.hello_line ]%string
    None EmptyString
  = {| yielded := [JObj [("text", JStr "Hel")]; JObj [("text", JStr "lo")]; Spec.done_chunk];
       reads := 4;
       finish := Normal tt |}.
Proof. vm_compute. reflexivity. Qed.

Lemma chatStream_decodes_wire_witness :
  (forall pieces rest,
      Spec.whole_text pieces
      = (Spec.wire Samples.hello_line Samples.world_line ++ rest)%string ->
      yielded (read_loop Samples.parse_known pieces None EmptyString)
      = [JObj [("text", JStr "Hel")]; JObj [("text", JStr "lo")]; Spec.done_chunk])
  /\ (forall pre s2 extra unread failure,
         (Spec.whole_text pre ++ s2)%string
         = Spec.wire Samples.hello_line Samples.world_line ->
         s2 <> EmptyString ->
         read_loop Samples.parse_known (pre ++ (s2 ++ extra)%string :: unread) failure
           EmptyString
         = {| yielded := [JObj [("text", JStr "Hel")]; JObj [("text", JStr "lo")];
                          Spec.done_chunk];
              reads := length pre + 1;
              finish := Normal tt |}).
Proof.
  apply (chatStream_decodes_wire Samples.parse_known Samples.hello_line Samples.world_line
           (JObj [("text", JStr "Hel")]) (JObj [("text", JStr "lo")]));
    vm_compute; reflexivity.
Defined.

(** ** The client's configuration *)

Section Configuration.

Context {W : Type}.
Variable console_warn : string -> W -> W.

Lemma resolved_url_spec (this : PuterClient) (h : Heap) :
  apiUrl this h = Spec.resolved_url (h !!! config this).
Proof.
  unfold apiUrl, Spec.resolved_url.
  destruct (api_base_url (h !!! config this)) as [[|c s]|]; reflexivity.
Qed.

Lemma resolved_timeout_spec (this : PuterClient) (h : Heap) :
  timeout this h = Spec.resolved_timeout (h !!! config this).
Proof.
  unfold timeout, Spec.resolved_timeout.
  destruct (api_timeout_ms (h !!! config this)) as [[|p|p]|]; reflexivity.
Qed.

(** The client holds the very object it was given (or the fresh [{}]). *)
Lemma constructor_config (authToken : string) (given : option loc) (h : Heap) :
  let this := fst (constructor authToken given h) in
  let h0 := snd (constructor authToken given h) in
  this_debug this = Spec.resolved_debug (h0 !!! config this)
  /\ match given with
     | Some l => config this = l /\ h0 = h
     | None => h !! config this = None /\ h0 !!! config this = empty_config
     end.
Proof.
  destruct given as [l|]; cbn.
  - auto.
  - rewrite lookup_total_insert_eq. repeat split.
    apply not_elem_of_dom, is_fresh.
Qed.

(** C5, as the code has it: [api_base_url], [api_timeout_ms], [max_retries]
    and [retry_delay_ms] are resolved against their defaults when a call is
    made, so a change of the config object after construction is observed by
    every later call; [debug] is resolved once, by the constructor, and a
    later change of it is not observed. *)
Theorem config_read_at_call_time (authToken : string) (given : option loc) (h : Heap)
  (cfg' : PuterConfig) :
  let this := fst (constructor authToken given h) in
  let h0 := snd (constructor authToken given h) in
  let h' := <[config this := cfg']> h0 in
  apiUrl this h' = Spec.resolved_url cfg'
  /\ timeout this h' = Spec.resolved_timeout cfg'
  /\ maxRetries (retryOptions W console_warn this h') = Some (Spec.resolved_max_retries cfg')
  /\ initialDelay (retryOptions W console_warn this h')
     = Some (inject_Z (Spec.resolved_retry_delay cfg'))
  /\ (forall method args,
         req_url (driver_call this h' method args)
         = (Spec.resolved_url cfg' ++ "/drivers/call")%string
         /\ req_deadline (driver_call this h' method args)
            = Some (Spec.resolved_timeout cfg'))
  /\ this_debug this = Spec.resolved_debug (h0 !!! config this)
  /\ (is_Some (onRetry (retryOptions W console_warn this h'))
      <-> Spec.resolved_debug (h0 !!! config this) = true).
Proof.
  intros this h0 h'.
  assert (h' !!! config this = cfg') as Hnow by apply lookup_total_insert_eq.
  destruct (constructor_config authToken given h) as [Hdebug _].
  fold this h0 in Hdebug.
  repeat apply conj.
  - now rewrite resolved_url_spec, Hnow.
  - now rewrite resolved_timeout_spec, Hnow.
  - unfold retryOptions. cbn [maxRetries]. now rewrite Hnow.
  - unfold retryOptions. cbn [initialDelay]. now rewrite Hnow.
  - intros method args. unfold driver_call. cbn [req_url req_deadline].
    now rewrite resolved_url_spec, resolved_timeout_spec, Hnow.
  - exact Hdebug.
  - unfold retryOptions. cbn [onRetry]. rewrite <- Hdebug.
    destruct (this_debug this); intros H; [reflexivity|].
    destruct H as [callback H]. discriminate H.
  - unfold retryOptions. cbn [onRetry]. rewrite <- Hdebug.
    destruct (this_debug this); intros H; [eauto | discriminate H].
Qed.

End Configuration.

(** C5 as stated fails for [debug]: a client built on [{}] and whose config
    object then gets [debug = true] still resolves [debug] to false, and its
    calls still pass no [onRetry]. *)
Lemma debug_read_at_construction :
  let this := fst (constructor "token" (Some 1%positive) Samples.one_config) in
  let h' := <[1%positive := Samples.debug_on]> Samples.one_config in
  config this = 1%positive
  /\ Spec.resolved_debug (h' !!! config this) = true
  /\ this_debug this = false
  /\ onRetry (retryOptions unit Samples.silent this h') = None.
Proof.
  cbn zeta. repeat apply conj.
  - reflexivity.
  - cbn [constructor fst config]. now rewrite lookup_total_insert_eq.
  - reflexivity.
  - reflexivity.
Qed.

(** ** Calls that never fail: [listModels] and [testConnection] *)

Section Degrading.

Context {W : Type}.
Variable Math_random : W -> Q * W.
Variable fetch : Request -> W -> Completion Response * W.
Variable console_warn : string -> W -> W.
Variable TypeError_reading : string -> JsError.
Variable this : PuterClient.
Variable h : Heap.

Local Abbreviation retryOptions := (retryOptions W console_warn this h).
Local Abbreviation listModels_operation :=
  (listModels_operation W fetch TypeError_reading this h).
Local Abbreviation listModels :=
  (listModels W Math_random fetch console_warn TypeError_reading this h).
Local Abbreviation chat := (chat W Math_random fetch console_warn TypeError_reading this h).
Local Abbreviation testConnection :=
  (testConnection W Math_random fetch console_warn TypeError_reading this h).

(** An operation that always rejects never makes the loop return. *)
Lemma run_attempts_never_returns {T : Type} (operation : W -> Completion T * W)
  (maxRetries : Z) (options : RetryOptions W) :
  (forall w, exists e w', operation w = (Throw e, w')) ->
  forall indices lastError st v,
    fst (run_attempts W Math_random T operation maxRetries options indices lastError st)
    <> Normal (Returned v).
Proof.
  intros Hfail. induction indices as [|attempt rest IH]; intros lastError st v.
  - discriminate.
  - rewrite run_attempts_step. destruct (Hfail (world st)) as (e & w' & ->).
    cbn zeta. destruct (negb _); [discriminate | apply IH].
Qed.

Lemma withRetry_rejects {T : Type} (operation : W -> Completion T * W)
  (options : RetryOptions W) (st : State W) :
  (forall w, exists e w', operation w = (Throw e, w')) ->
  exists x st', withRetry W Math_random T operation options st = (Throw x, st').
Proof.
  intros Hfail. unfold Retry.withRetry.
  pose proof (run_attempts_never_returns operation
                (default DEFAULT_maxRetries (maxRetries options)) options Hfail
                (attempt_indices (default DEFAULT_maxRetries (maxRetries options)))
                (new_Error "Unknown error") st) as Hnever.
  destruct (run_attempts _ _ _ _ _ _ _ _ _) as [[[v | lastError] | x] st'].
  - now destruct (Hnever v).
  - eauto.
  - eauto.
Qed.

Lemma listModels_total (st : State W) :
  exists models st', listModels st = (Normal models, st').
Proof.
  unfold Client.listModels.
  destruct (withRetry _ _ _ _ _ _) as [[models | e] st']; eauto.
Qed.

Lemma listModels_falls_back (st : State W) :
  (exists e st1,
      withRetry W Math_random json listModels_operation retryOptions st = (Throw e, st1)) ->
  fst (listModels st) = Normal (JArr (map model_object getDefaultModels)).
Proof. intros (e & st1 & H). unfold Client.listModels. now rewrite H. Qed.

(** C8: [listModels] never throws. Whenever the retried fetch ends in an
    error, and so whenever [fetch] fails on every attempt, it returns the
    hardcoded default catalog, which is not empty and has an entry with id
    claude-opus-4-5 and an entry with provider anthropic. *)
Theorem listModels_never_throws (st : State W) :
  (exists models st', listModels st = (Normal models, st'))
  /\ ((exists e st1,
          withRetry W Math_random json listModels_operation retryOptions st
          = (Throw e, st1)) ->
      fst (listModels st) = Normal (JArr (map model_object getDefaultModels)))
  /\ ((forall request w, exists e w', fetch request w = (Throw e, w')) ->
      fst (listModels st) = Normal (JArr (map model_object getDefaultModels)))
  /\ getDefaultModels <> []
  /\ (exists m, In m getDefaultModels /\ id m = "claude-opus-4-5")
  /\ (exists m, In m getDefaultModels /\ provider m = "anthropic")
  /\ (exists entry,
         In entry (map model_object getDefaultModels)
         /\ get (Some entry) "id" = Some (Some (JStr "claude-opus-4-5"))
         /\ get (Some entry) "provider" = Some (Some (JStr "anthropic"))).
Proof.
  repeat apply conj.
  - apply listModels_total.
  - apply listModels_falls_back.
  - intros Hfetch. apply listModels_falls_back.
    apply withRetry_rejects. intros w. unfold Client.listModels_operation.
    destruct (Hfetch {| req_url := (apiUrl this h ++ "/puterai/chat/models/details")%string;
                        req_method := "GET";
                        req_headers := [("Authorization", ("Bearer " ++ authToken this)%string)];
                        req_body := None;
                        req_deadline := None |} w) as (e & w' & ->).
    eauto.
  - discriminate.
  - exists (claude "claude-opus-4-5" "Claude Opus 4.5"). split; [now left | reflexivity].
  - exists (claude "claude-opus-4-5" "Claude Opus 4.5"). split; [now left | reflexivity].
  - exists (model_object (claude "claude-opus-4-5" "Claude Opus 4.5")).
    split; [now left | split; reflexivity].
Qed.

(** C9: [testConnection] never throws. It returns true if and only if the
    chat call returned a response that carries assistant message content (a
    truthy [message.content]; for a string, a non-empty one), and false on
    any error of the chat call, the exhaustion of its retries included. *)
Theorem testConnection_never_throws (st : State W) :
  exists b,
    testConnection st = (Normal b, snd (chat probe_messages probe_options st))
    /\ (b = true
        <-> exists response,
              fst (chat probe_messages probe_options st) = Normal response
              /\ Spec.carries_content response)
    /\ (forall e, fst (chat probe_messages probe_options st) = Throw e -> b = false)
    /\ (forall s, truthy (Some (JStr s)) = true <-> s <> EmptyString).
Proof.
  unfold Client.testConnection.
  destruct (chat probe_messages probe_options st) as [[response | e] st'] eqn:Hchat.
  - cbn [fst snd].
    assert (forall s, truthy (Some (JStr s)) = true <-> s <> EmptyString) as Hstr.
    { intros [|c s]; cbn; split; congruence. }
    destruct (get response "message") as [message|] eqn:Hmessage.
    + eexists. split; [reflexivity|]. split; [|split; [discriminate | exact Hstr]].
      split.
      * intros Htrue. exists response. split; [reflexivity|].
        destruct message as [message|]; [|discriminate Htrue].
        exists message.
        destruct message; try discriminate Htrue.
        cbn in Htrue |- *. destruct (field fields "content") as [content|] eqn:Hc;
          [|discriminate Htrue].
        exists content. auto.
      * intros (response' & Hr & message' & content & Hm & Hc & Htruthy).
        injection Hr as <-. rewrite Hmessage in Hm. injection Hm as ->.
        destruct message'; try discriminate Hc. cbn in Hc |- *.
        injection Hc as ->. exact Htruthy.
    + exists false. split; [reflexivity|]. split; [|split; [discriminate | exact Hstr]].
      split; [discriminate|].
      intros (response' & Hr & message' & content & Hm & _).
      injection Hr as <-. rewrite Hmessage in Hm. discriminate Hm.
  - cbn [fst snd]. exists false. split; [reflexivity|]. split; [|split].
    + split; [discriminate|]. intros (response & Hr & _). discriminate Hr.
    + reflexivity.
    + intros [|c s]; cbn; split; congruence.
Qed.

End Degrading.

(** The test 'should have default models as fallback': one attempt, then the
    default catalog. *)
Example listModels_unauthorized_run :
  listModels unit Samples.draw_zero Samples.unauthorized Samples.silent Samples.cannot_read
    Samples.test_client Samples.test_store Samples.start
  = (Normal (JArr (map model_object getDefaultModels)),
     {| world := tt;
        log := [EvAttempt (Some (VErr (new_Error "Puter API error (401): Unauthorized")))] |}).
Proof. vm_compute. reflexivity. Qed.

Example testConnection_runs :
  fst (testConnection unit Samples.draw_zero (Samples.answers (Samples.reply "OK"))
         Samples.silent Samples.cannot_read Samples.test_client Samples.test_store
         Samples.start) = Normal true
  /\ fst (testConnection unit Samples.draw_zero (Samples.answers (Samples.reply ""))
            Samples.silent Samples.cannot_read Samples.test_client Samples.test_store
            Samples.start) = Normal false
  /\ fst (testConnection unit Samples.draw_zero (Samples.answers JNull)
            Samples.silent Samples.cannot_read Samples.test_client Samples.test_store
            Samples.start) = Normal false
  /\ fst (testConnection unit Samples.draw_zero Samples.unauthorized
            Samples.silent Samples.cannot_read Samples.test_client Samples.test_store
            Samples.start) = Normal false.
Proof. repeat split; vm_compute; reflexivity. Qed.

(** ** [chatStream] as a whole *)

Section Streaming.

Context {W : Type}.
Variable Math_random : W -> Q * W.
Variable fetch : Request -> W -> Completion Response * W.
Variable console_warn : string -> W -> W.
Variable JSON_parse : string -> option json.
Variable this : PuterClient.
Variable h : Heap.

Local Abbreviation chatStream := (chatStream W Math_random fetch console_warn JSON_parse this h).
Local Abbreviation connect messages options :=
  (withRetry W Math_random Response (chatStream_operation W fetch this h messages options)
     (retryOptions W console_warn this h)).

(** Once the connection is made, the generator is the decoder run on the
    body; a failed connection and a missing body yield nothing. *)
Lemma chatStream_runs_decoder messages options (st : State W) :
  match connect messages options st with
  | (Throw e, st') =>
      chatStream messages options st
      = ({| yielded := []; reads := 0; finish := Throw e |}, st')
  | (Normal response, st') =>
      match body response with
      | Some b =>
          chatStream messages options st
          = (read_loop JSON_parse (pieces b) (read_failure b) EmptyString, st')
      | None => yielded (fst (chatStream messages options st)) = []
      end
  end.
Proof.
  unfold Client.chatStream.
  destruct (connect messages options st) as [[response | e] st']; [|reflexivity].
  now destruct (body response).
Qed.

End Streaming.

(** ** The shape of a run of [withRetry] *)

Section RunShape.

Context {W T : Type}.
Variable Math_random : W -> Q * W.
Variable operation : W -> Completion T * W.

Local Abbreviation before_retry := (before_retry W Math_random).
Local Abbreviation run_attempts := (run_attempts W Math_random T operation).
Local Abbreviation withRetry := (withRetry W Math_random T operation).
Local Abbreviation retried_ok := (Trace.retried_ok W Math_random).

Lemma new_events_app (st st' : State W) (evs : list Event) :
  log st' = log st ++ evs -> Trace.new_events st st' = evs.
Proof. intros H. unfold Trace.new_events. rewrite H. apply drop_app_length. Qed.

(** What preparing a retry adds to the record: the call of [onRetry] when
    there is one, then the sleep, both with the delay of [calculateDelay]. *)
Lemma before_retry_events options attempt lastError st :
  let delay :=
    fst (calculateDelay W Math_random attempt (Trace.delay_options options) (world st)) in
  log (before_retry options attempt lastError st)
  = log st
    ++ (if Trace.has_callback options
        then [EvOnRetry (Z.of_nat attempt + 1) lastError delay]
        else [])
    ++ [EvSleep delay].
Proof.
  unfold Retry.before_retry, Trace.has_callback, Trace.delay_options.
  destruct (calculateDelay _ _ _ _ _) as [delay w].
  destruct (onRetry options); cbn; [now rewrite <- app_assoc | reflexivity].
Qed.

(** A run of the loop is a series of retried failures, then its ending. *)
Lemma run_attempts_shape maxRetries options n :
  forall a lastError st,
    let run := run_attempts maxRetries options (seq a n) lastError st in
    exists retried ending,
      log (snd run)
      = log st ++ Trace.retry_events (Trace.has_callback options) a retried
          ++ Trace.ending_events ending
      /\ retried_ok maxRetries options a retried
      /\ match ending with
         | Trace.Resolved =>
             (length retried < n)%nat /\ exists v, fst run = Normal (Returned v)
         | Trace.Rejected error =>
             (length retried < n)%nat
             /\ fst run = Throw (VErr (to_Error error))
             /\ (isRetryableError error (statuses_of options) = false
                 \/ Z.of_nat (a + length retried) = maxRetries)
         | Trace.Exhausted =>
             length retried = n /\ exists lastError', fst run = Normal (FellThrough lastError')
         end.
Proof.
  induction n as [|n IH]; intros a lastError st run; subst run.
  - exists [], Trace.Exhausted. cbn. rewrite app_nil_r. eauto.
  - cbn [seq]. rewrite run_attempts_step.
    destruct (operation (world st)) as [[v | error] w].
    + exists [], Trace.Resolved. cbn. repeat split; [lia | eauto].
    + cbn zeta.
      destruct (negb (negb (Z.of_nat a =? maxRetries)%Z
                      && isRetryableError error (statuses_of options))) eqn:Hstop.
      * exists [], (Trace.Rejected error). cbn. repeat split; [lia|].
        apply negb_true_iff, andb_false_iff in Hstop as [Hlast | Hno]; [right | now left].
        apply negb_false_iff, Z.eqb_eq in Hlast. lia.
      * apply negb_false_iff, andb_true_iff in Hstop as [Hnotlast Hretry].
        apply negb_true_iff, Z.eqb_neq in Hnotlast.
        set (st1 := {| world := w; log := log st ++ [EvAttempt (Some error)] |}).
        pose proof (before_retry_events options a (to_Error error) st1) as Hprep.
        cbn zeta in Hprep.
        set (delay := fst (calculateDelay W Math_random a (Trace.delay_options options)
                             (world st1))) in Hprep.
        destruct (IH (S a) (to_Error error) (before_retry options a (to_Error error) st1))
          as (retried & ending & Hlog & Hok & Hend).
        exists ((error, delay) :: retried), ending. split; [|split].
        { rewrite Hlog, Hprep. subst st1. cbn [log Trace.retry_events].
          destruct (Trace.has_callback options); cbn [app]; rewrite <- !app_assoc;
            reflexivity. }
        { cbn. repeat split; try assumption. now exists (world st1). }
        { cbn [length]. destruct ending.
          - destruct Hend as [Hlen Hv]. split; [lia | exact Hv].
          - destruct Hend as (Hlen & Hthrow & Hwhy). split; [lia|]. split; [exact Hthrow|].
            destruct Hwhy as [Hno | Hlast]; [now left | right]. lia.
          - destruct Hend as [Hlen Hfell]. split; [lia | exact Hfell]. }
Qed.

Lemma retried_ok_index maxRetries options retried :
  forall a i,
    retried_ok maxRetries options a retried ->
    (i < length retried)%nat -> Z.of_nat (a + i) <> maxRetries.
Proof.
  induction retried as [|[error delay] rest IH]; intros a i Hok Hi; [cbn in Hi; lia|].
  destruct Hok as (_ & Hnot & _ & Hrest). destruct i as [|i].
  - now rewrite Nat.add_0_r.
  - replace (a + S i)%nat with (S a + i)%nat by lia. apply IH; [exact Hrest|].
    cbn in Hi. lia.
Qed.

Lemma retried_ok_retryable maxRetries options retried :
  forall a, retried_ok maxRetries options a retried ->
            Forall (fun p => isRetryableError (fst p) (statuses_of options) = true) retried.
Proof.
  induction retried as [|[error delay] rest IH]; intros a Hok; constructor.
  - apply Hok.
  - apply (IH (S a)), Hok.
Qed.

(** The shape of a whole run of [withRetry]. The loop condition ends the run
    only below zero, where nothing was invoked. *)
Lemma withRetry_shape (options : RetryOptions W) (st : State W) :
  let N := default DEFAULT_maxRetries (maxRetries options) in
  let run := withRetry options st in
  exists retried ending,
    Trace.new_events st (snd run)
    = Trace.retry_events (Trace.has_callback options) 0 retried
        ++ Trace.ending_events ending
    /\ retried_ok N options 0%nat retried
    /\ match ending with
       | Trace.Resolved =>
           Z.of_nat (length retried) <= N /\ exists v, fst run = Normal v
       | Trace.Rejected error =>
           Z.of_nat (length retried) <= N /\ fst run = Throw (VErr (to_Error error))
       | Trace.Exhausted =>
           N < 0 /\ retried = [] /\ exists e, fst run = Throw (VErr e)
       end.
Proof.
  intros N run. subst run.
  destruct (withRetry_loop Math_random operation options st) as (Hsnd & Hthrow & Hret).
  fold N in Hsnd, Hthrow, Hret.
  destruct (run_attempts_shape N options (Z.to_nat (N + 1)) 0%nat
              (new_Error "Unknown error") st) as (retried & ending & Hlog & Hok & Hend).
  fold (attempt_indices N) in Hlog, Hend.
  exists retried, ending. split; [|split; [exact Hok|]].
  - apply new_events_app. now rewrite Hsnd, Hlog.
  - destruct ending.
    + destruct Hend as [Hlen [v Hv]]. split; [lia|]. exists v. now apply Hret.
    + destruct Hend as (Hlen & Hx & _). split; [lia|]. now apply Hthrow.
    + destruct Hend as [Hlen [lastError' Hfell]].
      assert (N < 0) as Hneg.
      { destruct (Z.ltb_spec N 0) as [|Hpos]; [assumption | exfalso].
        apply (retried_ok_index N options retried 0%nat (Z.to_nat N) Hok); lia. }
      split; [exact Hneg|]. split.
      * destruct retried; [reflexivity | cbn in Hlen; lia].
      * unfold Retry.withRetry. fold N. destruct (run_attempts _ _ _ _ _) as [[[v | le] | x] st'];
          cbn in Hfell; try discriminate Hfell. eauto.
Qed.

Lemma outcomes_retry_events callback a retried :
  attempt_outcomes (Trace.retry_events callback a retried)
  = (fun p => Some (fst p)) <$> retried.
Proof.
  revert a. induction retried as [|[error delay] rest IH]; intros a; [reflexivity|].
  cbn [Trace.retry_events]. change (?x :: ?l ++ ?y :: ?r) with ([x] ++ l ++ [y] ++ r).
  rewrite !attempt_outcomes_app, IH. now destruct callback.
Qed.

Lemma sleeps_app (xs ys : list Event) :
  Trace.sleeps (xs ++ ys) = Trace.sleeps xs ++ Trace.sleeps ys.
Proof. apply omap_app. Qed.


Lemma sleeps_retry_events callback a retried :
  Trace.sleeps (Trace.retry_events callback a retried) = snd <$> retried.
Proof.
  revert a. induction retried as [|[error delay] rest IH]; intros a; [reflexivity|].
  cbn [Trace.retry_events]. change (?x :: ?l ++ ?y :: ?r) with ([x] ++ l ++ [y] ++ r).
  rewrite !sleeps_app, IH. now destruct callback.
Qed.


Lemma sleeps_ending ending : Trace.sleeps (Trace.ending_events ending) = [].
Proof. now destruct ending. Qed.


End RunShape.

(** ** What every run of [withRetry] keeps to *)

Section RunFacts.

Context {W T : Type}.
Variable Math_random : W -> Q * W.
Variable operation : W -> Completion T * W.

Local Abbreviation withRetry := (withRetry W Math_random T operation).
Local Abbreviation retried_ok := (Trace.retried_ok W Math_random).

Lemma outcomes_ending ending :
  attempt_outcomes (Trace.ending_events ending)
  = match ending with
    | Trace.Resolved => [None]
    | Trace.Rejected error => [Some error]
    | Trace.Exhausted => []
    end.
Proof. now destruct ending. Qed.

(** X1: the operation is never invoked more than maxRetries + 1 times, and not at
    all when maxRetries is below zero. *)
Theorem withRetry_invocation_bound (options : RetryOptions W) (st : State W) :
  let N := default DEFAULT_maxRetries (maxRetries options) in
  let run := withRetry options st in
  Z.of_nat (invocations (Trace.new_events st (snd run))) <= Z.max 0 (N + 1).
Proof.
  intros N run.
  destruct (withRetry_shape Math_random operation options st)
    as (retried & ending & Hev & _ & Hend).
  fold N run in Hev, Hend. rewrite Hev. unfold invocations.
  rewrite attempt_outcomes_app, outcomes_retry_events, outcomes_ending, length_app,
    length_fmap.
  destruct ending; cbn [length].
  - destruct Hend as [Hlen _]. lia.
  - destruct Hend as [Hlen _]. lia.
  - destruct Hend as (_ & -> & _). cbn. lia.
Qed.

(** X2: a success ends the run: [withRetry] resolves exactly when the last
    invocation resolved, and no invocation follows one that resolved. *)
Theorem withRetry_stops_at_success (options : RetryOptions W) (st : State W) :
  let run := withRetry options st in
  let outcomes := attempt_outcomes (Trace.new_events st (snd run)) in
  ((exists v, fst run = Normal v) <-> last outcomes = Some None)
  /\ (forall pre post, outcomes = pre ++ None :: post -> post = []).
Proof.
  intros run outcomes. subst outcomes.
  destruct (withRetry_shape Math_random operation options st)
    as (retried & ending & Hev & _ & Hend).
  fold run in Hev, Hend. rewrite Hev.
  rewrite attempt_outcomes_app, outcomes_retry_events, outcomes_ending.
  assert (forall pre post,
             ((fun p : JsValue * Z => Some (fst p)) <$> retried) ++ [None]
             = pre ++ None :: post -> post = []) as Hlast.
  { clear. induction retried as [|[e d] rest IH]; intros pre post H.
    - destruct pre as [|x [|y pre]]; try discriminate H. now injection H.
    - destruct pre as [|x pre]; [discriminate H|]. injection H as _ H. eauto. }
  destruct ending.
  - destruct Hend as [_ [v Hv]]. split.
    + split; [intros _; apply last_snoc | eauto].
    + exact Hlast.
  - destruct Hend as [_ Hx]. split.
    + rewrite last_snoc, Hx. split; [intros [v Hv]; discriminate Hv | discriminate].
    + intros pre post H. exfalso. clear -H. revert pre H.
      induction retried as [|[e d] rest IH]; intros pre H.
      * destruct pre as [|x [|y pre]]; discriminate H.
      * destruct pre as [|x pre]; [discriminate H|]. injection H as _ H. eauto.
  - destruct Hend as (_ & -> & e & He). cbn. split.
    + rewrite He. split; [intros [v Hv]; discriminate Hv | discriminate].
    + intros pre post H. now destruct pre.
Qed.

(** X4: a run sleeps once per retry: one sleep fewer than invocations, and none
    when nothing was invoked. *)
Theorem withRetry_sleeps_per_retry (options : RetryOptions W) (st : State W) :
  let evs := Trace.new_events st (snd (withRetry options st)) in
  length (Trace.sleeps evs) = (invocations evs - 1)%nat.
Proof.
  intros evs. subst evs.
  destruct (withRetry_shape Math_random operation options st)
    as (retried & ending & Hev & _ & Hend).
  rewrite Hev. unfold invocations.
  rewrite sleeps_app, attempt_outcomes_app, sleeps_retry_events, outcomes_retry_events,
    sleeps_ending, outcomes_ending, !length_app, !length_fmap.
  destruct ending; cbn [length]; try lia.
  destruct Hend as (_ & -> & _). reflexivity.
Qed.


End RunFacts.

(** ** Chance *)

Section Chance.

Context {W T : Type}.
Variables Math_random Math_random' : W -> Q * W.
Variable operation : W -> Completion T * W.

Lemma before_retry_without_jitter (options : RetryOptions W) (attempt : nat)
  (lastError : JsError) (st : State W) :
  jitter options = Some false ->
  before_retry W Math_random options attempt lastError st
  = before_retry W Math_random' options attempt lastError st.
Proof.
  intros Hjitter. unfold before_retry, calculateDelay. cbn [jitter]. rewrite Hjitter.
  reflexivity.
Qed.

Lemma run_attempts_without_jitter (maxRetries : Z) (options : RetryOptions W) :
  jitter options = Some false ->
  forall indices lastError st,
    run_attempts W Math_random T operation maxRetries options indices lastError st
    = run_attempts W Math_random' T operation maxRetries options indices lastError st.
Proof.
  intros Hjitter. induction indices as [|attempt rest IH]; intros lastError st;
    [reflexivity|].
  cbn [run_attempts]. destruct (invoke_operation W T operation st) as [[v|error] st'];
    [reflexivity|].
  destruct (negb _); [reflexivity|].
  now rewrite (before_retry_without_jitter _ _ _ _ Hjitter), IH.
Qed.

(** X5: with jitter off, chance has no part in a run: [Math.random] is not
    consulted, so the run is the same whatever it would have drawn. *)
Theorem withRetry_without_jitter_ignores_chance (options : RetryOptions W) (st : State W) :
  jitter options = Some false ->
  withRetry W Math_random T operation options st
  = withRetry W Math_random' T operation options st.
Proof.
  intros Hjitter. unfold withRetry.
  now rewrite (run_attempts_without_jitter _ _ Hjitter).
Qed.

End Chance.

(** ** More on the classifier *)

Section ClassifierFacts.

Lemma contains_ci_embed (msg pat pre post : string) :
  Spec.contains_ci msg pat -> Spec.contains_ci (pre ++ msg ++ post) pat.
Proof.
  intros (a & mid & b & -> & Hmid).
  exists (pre ++ a)%string, mid, (b ++ post)%string. split; [|exact Hmid].
  now rewrite !append_assoc.
Qed.

Lemma retryable_message_embed (msg pre post : string) (statuses : list Z) :
  Spec.retryable_message msg statuses ->
  Spec.retryable_message (pre ++ msg ++ post) statuses.
Proof.
  intros [(N & HN & [H | H]) | (marker & Hm & H)].
  - left. exists N. split; [exact HN|]. left. now apply contains_ci_embed.
  - left. exists N. split; [exact HN|]. right. now apply contains_ci_embed.
  - right. exists marker. split; [exact Hm|]. now apply contains_ci_embed.
Qed.

Lemma isRetryableError_default (error : JsValue) :
  isRetryableError error None = isRetryableError error (Some DEFAULT_retryableStatuses).
Proof. reflexivity. Qed.

(** X10: the classifier only ever says yes to more: text added around a retryable
    message leaves it retryable, and so do more status codes. *)
Theorem isRetryableError_monotone :
  (forall e name pre post statuses,
      isRetryableError (VErr e) statuses = true ->
      isRetryableError (VErr (PlainError name (pre ++ error_message e ++ post))) statuses
      = true)
  /\ (forall error statuses statuses',
         (forall N, In N statuses -> In N statuses') ->
         isRetryableError error (Some statuses) = true ->
         isRetryableError error (Some statuses') = true).
Proof.
  split.
  - intros e name pre post [statuses|] H.
    + apply isRetryableError_Error. apply isRetryableError_Error in H.
      now apply retryable_message_embed.
    + rewrite isRetryableError_default in H |- *.
      apply isRetryableError_Error. apply isRetryableError_Error in H.
      now apply retryable_message_embed.
  - intros error statuses statuses' Hsub H.
    destruct error; try discriminate H.
    apply isRetryableError_Error. apply isRetryableError_Error in H.
    destruct H as [(N & HN & H) | H]; [left | now right].
    exists N. split; [now apply Hsub | exact H].
Qed.

(** A message that shows a retryable status code between parentheses is
    retryable, whatever stands around it. *)
Lemma status_in_message_retryable (N : Z) (statuses : list Z) (name pre post : string) :
  In N statuses ->
  isRetryableError (VErr (PlainError name (pre ++ "(" ++ of_Z N ++ ")" ++ post)))
    (Some statuses) = true.
Proof.
  intros HN. apply isRetryableError_Error. left. exists N. split; [exact HN|]. left.
  cbn [error_message].
  exists pre, ("(" ++ of_Z N ++ ")")%string, post. split; [|reflexivity].
  now rewrite !append_assoc.
Qed.

End ClassifierFacts.

(** ** Runs on an operation that always fails the same way *)

Section ConstantFailure.

Context {W T : Type}.
Variable Math_random : W -> Q * W.
Variable operation : W -> Completion T * W.
Variable options : RetryOptions W.
Variable failure : JsValue.

Hypothesis always_throws : forall w, exists w', operation w = (Throw failure, w').

Local Abbreviation run_attempts := (run_attempts W Math_random T operation).
Local Abbreviation withRetry := (withRetry W Math_random T operation).

Lemma run_attempts_constant_failure maxRetries k :
  forall a lastError st,
    Z.of_nat (a + k) = maxRetries ->
    exists st' evs,
      run_attempts maxRetries options (seq a (S k)) lastError st
      = (Throw (VErr (to_Error failure)), st')
      /\ log st' = log st ++ evs
      /\ invocations evs
         = if isRetryableError failure (statuses_of options) then S k else 1%nat.
Proof.
  induction k as [|k IH]; intros a lastError st Hlast.
  - cbn [seq]. rewrite run_attempts_step.
    destruct (always_throws (world st)) as (w' & ->). cbn zeta.
    replace (Z.of_nat a =? maxRetries)%Z with true by (symmetry; apply Z.eqb_eq; lia).
    cbn [negb andb]. eexists _, [EvAttempt (Some failure)]. repeat split.
    now destruct (isRetryableError _ _).
  - change (seq a (S (S k))) with (a :: seq (S a) (S k)). rewrite run_attempts_step.
    destruct (always_throws (world st)) as (w' & ->). cbn zeta.
    replace (Z.of_nat a =? maxRetries)%Z with false by (symmetry; apply Z.eqb_neq; lia).
    destruct (isRetryableError failure (statuses_of options)) eqn:Hretry; cbn [negb andb].
    + set (st1 := {| world := w'; log := log st ++ [EvAttempt (Some failure)] |}).
      destruct (before_retry_log Math_random options a (to_Error failure) st1)
        as (mid & Hmid & Hnone).
      destruct (IH (S a) (to_Error failure)
                  (before_retry W Math_random options a (to_Error failure) st1))
        as (st' & evs & Hrun & Hlog & Hcount); [lia|].
      exists st', ([EvAttempt (Some failure)] ++ mid ++ evs). split; [exact Hrun|]. split.
      * rewrite Hlog, Hmid. subst st1. cbn [log]. now rewrite <- !app_assoc.
      * rewrite !invocations_app. unfold invocations at 2. rewrite Hnone, Hcount.
        reflexivity.
    + eexists _, [EvAttempt (Some failure)]. repeat split.
Qed.

(** An operation that always throws the same value is invoked maxRetries + 1
    times when that value is classified as retryable and once when it is
    not, and [withRetry] throws that value (made an [Error]). *)
Lemma withRetry_constant_failure (st : State W) :
  let N := default DEFAULT_maxRetries (maxRetries options) in
  0 <= N ->
  exists st',
    withRetry options st = (Throw (VErr (to_Error failure)), st')
    /\ Z.of_nat (invocations (Trace.new_events st st'))
       = if isRetryableError failure (statuses_of options) then N + 1 else 1.
Proof.
  intros N HN.
  destruct (run_attempts_constant_failure N (Z.to_nat N) 0%nat (new_Error "Unknown error") st)
    as (st' & evs & Hrun & Hlog & Hcount); [lia|].
  exists st'. split.
  - unfold Retry.withRetry, attempt_indices. fold N.
    replace (Z.to_nat (N + 1)) with (S (Z.to_nat N)) by lia. now rewrite Hrun.
  - rewrite (new_events_app st st' evs Hlog), Hcount.
    destruct (isRetryableError _ _); lia.
Qed.

End ConstantFailure.

Section FirstSuccess.

Context {W T : Type}.
Variable Math_random : W -> Q * W.
Variable operation : W -> Completion T * W.

(** An operation that resolves at the first invocation is invoked once, and
    nothing is slept or called back. *)
Lemma withRetry_first_success (options : RetryOptions W) (st : State W) (v : T) (w' : W) :
  0 <= default DEFAULT_maxRetries (maxRetries options) ->
  operation (world st) = (Normal v, w') ->
  withRetry W Math_random T operation options st
  = (Normal v, {| world := w'; log := log st ++ [EvAttempt None] |}).
Proof.
  intros HN Hop. unfold Retry.withRetry, attempt_indices.
  replace (Z.to_nat (default DEFAULT_maxRetries (maxRetries options) + 1))
    with (S (Z.to_nat (default DEFAULT_maxRetries (maxRetries options)))) by lia.
  cbn [seq]. rewrite run_attempts_step, Hop. reflexivity.
Qed.

(** What [withRetry] resolves with is what some invocation resolved with. *)
Lemma withRetry_resolved_value (options : RetryOptions W) (st : State W) (v : T) :
  fst (withRetry W Math_random T operation options st) = Normal v ->
  exists w w', operation w = (Normal v, w').
Proof.
  unfold Retry.withRetry.
  generalize (attempt_indices (default DEFAULT_maxRetries (maxRetries options))).
  generalize (new_Error "Unknown error").
  intros lastError indices. revert lastError st.
  induction indices as [|attempt rest IH]; intros lastError st.
  - cbn. discriminate.
  - rewrite run_attempts_step.
    destruct (operation (world st)) as [[v0 | error] w] eqn:Hop.
    + cbn. intros [= <-]. eauto.
    + cbn zeta. destruct (negb _); [cbn; discriminate | apply IH].
Qed.

End FirstSuccess.

(** ** More on the client's calls *)

Section ClientCalls.

Context {W : Type}.
Variable Math_random : W -> Q * W.
Variable fetch : Request -> W -> Completion Response * W.
Variable console_warn : string -> W -> W.
Variable TypeError_reading : string -> JsError.
Variable this : PuterClient.
Variable h : Heap.

Local Abbreviation retryOptions := (retryOptions W console_warn this h).
Local Abbreviation makeRequest_operation := (makeRequest_operation W fetch this h).
Local Abbreviation listModels_operation :=
  (listModels_operation W fetch TypeError_reading this h).
Local Abbreviation listModels :=
  (listModels W Math_random fetch console_warn TypeError_reading this h).
Local Abbreviation chat := (chat W Math_random fetch console_warn TypeError_reading this h).

(** X17: the timeout of a request is never zero and the base URL never empty:
    a zero [api_timeout_ms] and an empty [api_base_url] give the defaults,
    while a zero [max_retries] is kept. *)
Theorem config_falsy_values :
  timeout this h <> 0
  /\ apiUrl this h <> EmptyString
  /\ (api_timeout_ms (h !!! config this) = Some 0 -> timeout this h = DEFAULT_TIMEOUT)
  /\ (api_base_url (h !!! config this) = Some EmptyString -> apiUrl this h = DEFAULT_API_URL)
  /\ (max_retries (h !!! config this) = Some 0 -> maxRetries retryOptions = Some 0).
Proof.
  unfold timeout, apiUrl, Client.retryOptions. cbn [maxRetries].
  destruct (api_timeout_ms (h !!! config this)) as [[|p|p]|];
    destruct (api_base_url (h !!! config this)) as [[|c s]|];
    repeat split; try discriminate; try reflexivity; intros ->; reflexivity.
Qed.

(** The message of the error that the client throws for a response that is
    not ok. *)
Lemma api_error_retryable (status : Z) (errorText : string) :
  In status DEFAULT_retryableStatuses ->
  isRetryableError
    (VErr (new_Error ("Puter API error (" ++ of_Z status ++ "): " ++ errorText))) None
  = true.
Proof.
  intros Hin. rewrite isRetryableError_default.
  exact (status_in_message_retryable status DEFAULT_retryableStatuses "Error"
           "Puter API error " (": " ++ errorText) Hin).
Qed.

(** X13: when every response is an HTTP error with status [status] and body
    [errorText], [chat] throws an [Error] whose message carries both; it has
    sent max_retries + 1 requests when that message is classified as
    retryable (as it is for 429, 500, 502, 503 and 504, whatever the body)
    and a single one when it is not. *)
Theorem chat_http_error (status : Z) (errorText : string) messages options (st : State W) :
  let N := default DEFAULT_MAX_RETRIES (max_retries (h !!! config this)) in
  let failure :=
    VErr (new_Error ("Puter API error (" ++ of_Z status ++ "): " ++ errorText)) in
  0 <= N ->
  (forall request w, exists response w',
      fetch request w = (Normal response, w')
      /\ ok response = false
      /\ Client.status response = status
      /\ text response = Normal errorText) ->
  exists st',
    chat messages options st = (Throw failure, st')
    /\ Z.of_nat (invocations (Trace.new_events st st'))
       = (if isRetryableError failure None then N + 1 else 1)
    /\ (In status DEFAULT_retryableStatuses -> isRetryableError failure None = true).
Proof.
  intros N failure HN Hfetch.
  assert (forall w, exists w',
             makeRequest_operation "complete" (chat_args messages options false) w
             = (Throw failure, w')) as Hop.
  { intros w. unfold Client.makeRequest_operation.
    destruct (Hfetch (driver_call this h "complete" (chat_args messages options false)) w)
      as (response & w' & -> & Hok & Hstatus & Htext).
    rewrite Hok, Htext, Hstatus. cbn. eauto. }
  destruct (withRetry_constant_failure Math_random _ retryOptions failure Hop st HN)
    as (st' & Hrun & Hcount).
  exists st'. split; [|split].
  - unfold Client.chat, Client.makeRequest. now rewrite Hrun.
  - exact Hcount.
  - apply api_error_retryable.
Qed.

(** X14: when the first response is ok with JSON payload [data], [chat] has sent
    one request and returns [data.result]: the field of an object,
    [undefined] for an object without it and for any other value that is not
    [null]; for [null] it throws the [TypeError] of reading [result]. *)
Theorem chat_returns_result (data : json) (response : Response) (w' : W)
  messages options (st : State W) :
  0 <= default DEFAULT_MAX_RETRIES (max_retries (h !!! config this)) ->
  fetch (driver_call this h "complete" (chat_args messages options false)) (world st)
  = (Normal response, w') ->
  ok response = true ->
  json_body response = Normal data ->
  let run := chat messages options st in
  snd run = {| world := w'; log := log st ++ [EvAttempt None] |}
  /\ (forall fields, data = JObj fields -> fst run = Normal (field fields "result"))
  /\ (data = JNull <-> fst run = Throw (VErr (TypeError_reading "result")))
  /\ ((forall fields, data <> JObj fields) -> data <> JNull -> fst run = Normal None).
Proof.
  intros HN Hfetch Hok Hdata run. subst run.
  assert (makeRequest_operation "complete" (chat_args messages options false) (world st)
          = (Normal data, w')) as Hop.
  { unfold Client.makeRequest_operation. now rewrite Hfetch, Hok, Hdata. }
  unfold Client.chat, Client.makeRequest.
  rewrite (withRetry_first_success Math_random _ retryOptions st data w' HN Hop).
  destruct data; cbn; repeat split; try congruence; try discriminate.
Qed.

(** X15: when the first response is ok with a JSON payload [data] that is not
    [null], [listModels] has sent one request and returns [data.models] if
    that is truthy, else [data] if that is truthy, else the empty list. *)
Theorem listModels_unwraps (data : json) (response : Response) (w' : W) (st : State W) :
  0 <= default DEFAULT_MAX_RETRIES (max_retries (h !!! config this)) ->
  fetch {| req_url := (apiUrl this h ++ "/puterai/chat/models/details")%string;
           req_method := "GET";
           req_headers := [("Authorization", ("Bearer " ++ authToken this)%string)];
           req_body := None;
           req_deadline := None |} (world st)
  = (Normal response, w') ->
  ok response = true ->
  json_body response = Normal data ->
  data <> JNull ->
  exists result,
    listModels st = (Normal result, {| world := w'; log := log st ++ [EvAttempt None] |})
    /\ (forall fields models,
           data = JObj fields -> field fields "models" = Some models ->
           truthy (Some models) = true -> result = models)
    /\ (match data with
        | JObj fields => truthy (field fields "models") = false
        | _ => True
        end -> truthy (Some data) = true -> result = data)
    /\ (truthy (Some data) = false -> result = JArr []).
Proof.
  intros HN Hfetch Hok Hdata Hnull.
  destruct (get (Some data) "models") as [models|] eqn:Hget;
    [|destruct data; try discriminate Hget; congruence].
  set (result := match or_else (or_else models (Some data)) (Some (JArr [])) with
                 | Some r => r
                 | None => JArr []
                 end).
  assert (listModels_operation (world st) = (Normal result, w')) as Hop.
  { unfold Client.listModels_operation. rewrite Hfetch, Hok, Hdata. cbn [negb].
    rewrite Hget. subst result.
    now destruct (or_else (or_else models (Some data)) (Some (JArr []))). }
  exists result. split.
  - unfold Client.listModels.
    now rewrite (withRetry_first_success Math_random _ retryOptions st result w' HN Hop).
  - subst result. unfold or_else. repeat split.
    + intros fields models' -> Hfield Htruthy. cbn in Hget. injection Hget as <-.
      rewrite Hfield, Htruthy. cbn iota. now rewrite Htruthy.
    + intros Hfalsy Htruthy.
      assert (truthy models = false) as ->.
      { destruct data; cbn in Hget; try discriminate Hget; injection Hget as <-;
          try reflexivity. exact Hfalsy. }
      now rewrite Htruthy.
    + intros Hfalsy.
      assert (truthy models = false) as ->.
      { destruct data; cbn in Hget; try discriminate Hget; injection Hget as <-;
          try reflexivity. discriminate Hfalsy. }
      now rewrite Hfalsy.
Qed.

(** X16: [listModels] returns the default catalog when every response is an HTTP
    error, has a body that is not JSON, or carries the payload [null]. *)
Theorem listModels_degrades (st : State W) :
  (forall request w, exists response w',
      fetch request w = (Normal response, w')
      /\ (ok response = false
          \/ json_body response = Normal JNull
          \/ exists e, json_body response = Throw e)) ->
  fst (listModels st) = Normal (JArr (map model_object getDefaultModels)).
Proof.
  intros Hfetch.
  apply (listModels_falls_back Math_random fetch console_warn TypeError_reading this h st).
  apply withRetry_rejects. intros w. unfold Client.listModels_operation.
  destruct (Hfetch {| req_url := (apiUrl this h ++ "/puterai/chat/models/details")%string;
                      req_method := "GET";
                      req_headers := [("Authorization", ("Bearer " ++ authToken this)%string)];
                      req_body := None;
                      req_deadline := None |} w) as (response & w' & -> & Hwhy).
  destruct (ok response) eqn:Hok; cbn [negb]; [|eauto].
  destruct Hwhy as [Hno | [Hnull | [e He]]]; [discriminate Hno | |].
  - rewrite Hnull. cbn. eauto.
  - rewrite He. eauto.
Qed.

End ClientCalls.

(** ** [createRetryFetch] *)

Section RetryFetchFacts.

Context {W Input Init Resp : Type}.
Variable Math_random : W -> Q * W.
Variable response_status : Resp -> Z.
Variable response_statusText : Resp -> string.
Variable fetch : Input -> option Init -> W -> Completion Resp * W.
Variable options : RetryOptions W.

Local Abbreviation retryFetch :=
  (RetryFetch.retryFetch W Math_random Input Init Resp response_status response_statusText
     fetch options).
Local Abbreviation retryFetch_operation :=
  (RetryFetch.retryFetch_operation W Input Init Resp response_status response_statusText
     fetch options).
Local Abbreviation statuses := (default DEFAULT_retryableStatuses (retryableStatuses options)).

Lemma includes_status_In (l : list Z) (status : Z) :
  RetryFetch.includes_status l status = true <-> In status l.
Proof.
  unfold RetryFetch.includes_status. rewrite existsb_exists. split.
  - intros (x & Hx & Heq). apply Z.eqb_eq in Heq. now subst.
  - intros H. exists status. split; [exact H | apply Z.eqb_refl].
Qed.

Lemma retryFetch_statuses :
  match retryableStatuses options with
  | Some l => l
  | None => DEFAULT_retryableStatuses
  end = statuses.
Proof. now destruct (retryableStatuses options). Qed.

(** X11: the wrapped [fetch] never resolves with a response whose status is one
    of the retryable ones. *)
Theorem retryFetch_never_resolves_retryable (input : Input) (init : option Init)
  (st : State W) (response : Resp) :
  fst (retryFetch input init st) = Normal response ->
  ~ In (response_status response) statuses.
Proof.
  intros Hrun Hin. unfold RetryFetch.retryFetch in Hrun.
  apply withRetry_resolved_value in Hrun as (w & w' & Hop).
  unfold RetryFetch.retryFetch_operation in Hop. rewrite retryFetch_statuses in Hop.
  destruct (fetch input init w) as [[r | e] w0]; [|discriminate Hop].
  destruct (RetryFetch.includes_status statuses (response_status r)) eqn:Hinc;
    [discriminate Hop|].
  injection Hop as -> _. apply includes_status_In in Hin. congruence.
Qed.

(** X12: when every response has the retryable status [status], the wrapped
    [fetch] calls [fetch] maxRetries + 1 times and then throws the [Error]
    'HTTP error (status): statusText'. *)
Theorem retryFetch_retries_status (input : Input) (init : option Init) (st : State W)
  (status : Z) (statusText : string) :
  let N := default DEFAULT_maxRetries (maxRetries options) in
  0 <= N ->
  In status statuses ->
  (forall w, exists response w',
      fetch input init w = (Normal response, w')
      /\ response_status response = status
      /\ response_statusText response = statusText) ->
  exists st',
    retryFetch input init st
    = (Throw (VErr (new_Error ("HTTP error (" ++ of_Z status ++ "): " ++ statusText))), st')
    /\ Z.of_nat (invocations (Trace.new_events st st')) = N + 1.
Proof.
  intros N HN Hin Hfetch.
  set (failure := VErr (new_Error ("HTTP error (" ++ of_Z status ++ "): " ++ statusText))).
  assert (forall w, exists w', retryFetch_operation input init w = (Throw failure, w'))
    as Hop.
  { intros w. unfold RetryFetch.retryFetch_operation. rewrite retryFetch_statuses.
    destruct (Hfetch w) as (response & w' & -> & -> & ->).
    apply includes_status_In in Hin. rewrite Hin. eauto. }
  destruct (withRetry_constant_failure Math_random _ options failure Hop st HN)
    as (st' & Hrun & Hcount).
  exists st'. split; [exact Hrun|]. rewrite Hcount.
  assert (isRetryableError failure (statuses_of options) = true) as ->; [|reflexivity].
  exact (status_in_message_retryable status statuses "Error" "HTTP error "
           (": " ++ statusText) Hin).
Qed.

End RetryFetchFacts.

(** ** More on the stream decoder *)

Section DecoderFacts.

Variable JSON_parse : string -> option json.

Local Abbreviation read_loop := (read_loop JSON_parse).
Local Abbreviation parse_line := (Spec.parse_line JSON_parse).
Local Abbreviation scan := (Spec.scan JSON_parse).

(** The whole run of the decoder on the remaining pieces, for a stream that
    closes or fails after them. *)
Lemma read_loop_outcome (pieces : list string) (failure : option JsValue) :
  forall buffer,
    Spec.single_line buffer = true ->
    let text := (buffer ++ Spec.whole_text pieces)%string in
    let run := read_loop pieces failure buffer in
    yielded run = fst (scan text) ++ Framing.last_words JSON_parse failure text
    /\ finish run = Framing.ending JSON_parse failure text
    /\ (if snd (scan text) then (reads run <= length pieces)%nat
        else reads run = S (length pieces)).
Proof.
  unfold Framing.last_words, Framing.ending. cbv zeta.
  induction pieces as [|value rest IH]; intros buffer Hbuffer.
  - cbn [Spec.whole_text fold_right]. rewrite append_nil_r, (scan_single _ _ Hbuffer).
    cbn [fst snd app length]. rewrite (trailing_of_single _ Hbuffer).
    cbn [Client.read_loop]. destruct failure; cbn; [auto|].
    now rewrite process_remaining_spec.
  - rewrite read_loop_step. cbn [Spec.whole_text fold_right].
    fold (Spec.whole_text rest). rewrite <- append_assoc.
    rewrite (scan_app JSON_parse (buffer ++ value)), (trailing_app (buffer ++ value)).
    destruct (snd (scan (buffer ++ value))) eqn:Hended.
    + rewrite Hended. cbn [yielded reads finish length]. rewrite app_nil_r.
      repeat split. lia.
    + destruct (IH (Spec.trailing (buffer ++ value)) (trailing_single _))
        as (Hy & Hf & Hr).
      cbn [yielded reads finish fst snd length]. rewrite Hy, Hf, <- app_assoc.
      repeat split.
      destruct (snd (scan (Spec.trailing (buffer ++ value) ++ Spec.whole_text rest)));
        lia.
Qed.


(** X21: what the decoder yields, and how it finishes, depends on the text of the
    stream only, not on how the transport cut it into pieces. *)
Theorem chatStream_split_invariant (pieces pieces' : list string) (failure : option JsValue) :
  Spec.whole_text pieces = Spec.whole_text pieces' ->
  yielded (read_loop pieces failure EmptyString)
  = yielded (read_loop pieces' failure EmptyString)
  /\ finish (read_loop pieces failure EmptyString)
     = finish (read_loop pieces' failure EmptyString).
Proof.
  intros Htext.
  destruct (read_loop_outcome pieces failure EmptyString eq_refl) as (Hy & Hf & _).
  destruct (read_loop_outcome pieces' failure EmptyString eq_refl) as (Hy' & Hf' & _).
  cbn [append] in Hy, Hf, Hy', Hf'. rewrite Hy, Hf, Hy', Hf', Htext. auto.
Qed.


Lemma upto_final_shape (chunks : list json) :
  Forall (fun c => Spec.final c = false)
    (if snd (Spec.upto_final chunks) then removelast (fst (Spec.upto_final chunks))
     else fst (Spec.upto_final chunks))
  /\ (length (fst (Spec.upto_final chunks)) <= length chunks)%nat.
Proof.
  induction chunks as [|c cs [IH Hlen]]; cbn [Spec.upto_final].
  - cbn. auto.
  - destruct (Spec.final c) eqn:Hc; cbn; [split; [constructor | lia]|].
    destruct (Spec.upto_final cs) as [out [|]]; cbn in IH, Hlen |- *.
    + split; [|lia]. destruct out as [|o out]; [constructor|].
      constructor; [exact Hc | exact IH].
    + split; [|lia]. constructor; [exact Hc | exact IH].
Qed.

Lemma final_is_last (init tail pre post : list json) (c : json) :
  Forall (fun c => Spec.final c = false) init ->
  (length tail <= 1)%nat ->
  init ++ tail = pre ++ c :: post ->
  Spec.final c = true ->
  post = [].
Proof.
  revert pre. induction init as [|x init IH]; intros pre Hinit Htail Heq Hc.
  - cbn in Heq. destruct tail as [|t [|t' tail]]; [now destruct pre | | cbn in Htail; lia].
    destruct pre as [|p [|q pre]]; try discriminate Heq. now injection Heq.
  - inversion Hinit as [|? ? Hx Hrest]; subst. destruct pre as [|p pre].
    + injection Heq as -> _. congruence.
    + injection Heq as _ Heq. eauto.
Qed.

(** X23: nothing is yielded after a final chunk: a chunk whose [done] is set can
    only be the last of the sequence. *)
Theorem chatStream_final_is_last (pieces : list string) (failure : option JsValue)
  (pre post : list json) (c : json) :
  yielded (read_loop pieces failure EmptyString) = pre ++ c :: post ->
  Spec.final c = true ->
  post = [].
Proof.
  destruct (read_loop_outcome pieces failure EmptyString eq_refl) as (Hy & _ & _).
  cbn [append] in Hy. rewrite Hy. clear Hy.
  unfold Framing.last_words, Spec.scan.
  destruct (upto_final_shape (omap parse_line (Spec.complete_lines (Spec.whole_text pieces))))
    as [Hshape _].
  destruct (Spec.upto_final _) as [out [|]]; cbn [fst snd] in Hshape |- *.
  - rewrite app_nil_r. intros Heq Hc.
    destruct out as [|o out] using rev_ind; [now destruct pre|].
    rewrite removelast_last in Hshape.
    exact (final_is_last out [o] pre post c Hshape ltac:(cbn; lia) Heq Hc).
  - intros Heq Hc. eapply (final_is_last out _ pre post c Hshape); [|exact Heq|exact Hc].
    destruct failure; [cbn; lia|]. destruct (parse_line _); cbn; lia.
Qed.



Lemma blank_lines (s : string) :
  Spec.blank s = true -> Forall (fun l => Spec.blank l = true) (split_lines s).
Proof.
  induction s as [|c s IH]; [repeat constructor|].
  cbn [Spec.blank]. intros [Hc Hs]%andb_true_iff. specialize (IH Hs).
  destruct (Ascii.eqb c LF) eqn:HLF.
  - apply Ascii.eqb_eq in HLF as ->. rewrite split_lines_LF. now constructor.
  - destruct (split_lines_other c s HLF) as (l & ls & Hsplit & ->). rewrite Hsplit in IH.
    inversion IH; subst. constructor; [|assumption]. cbn [Spec.blank]. now rewrite Hc.
Qed.

(** X25: a stream that holds white space only, the empty stream included, yields
    nothing and ends normally. *)
Theorem chatStream_blank_stream (pieces : list string) :
  Spec.blank (Spec.whole_text pieces) = true ->
  read_loop pieces None EmptyString
  = {| yielded := []; reads := S (length pieces); finish := Normal tt |}.
Proof.
  intros Hblank.
  destruct (read_loop_outcome pieces None EmptyString eq_refl) as (Hy & Hf & Hr).
  cbn [append] in Hy, Hf, Hr.
  pose proof (blank_lines _ Hblank) as Hlines.
  assert (forall ls, Forall (fun l => Spec.blank l = true) ls -> omap parse_line ls = [])
    as Hnone.
  { induction 1 as [|l ls Hl _ IH]; [reflexivity|].
    change (omap parse_line (l :: ls))
      with (match parse_line l with
            | Some c => c :: omap parse_line ls
            | None => omap parse_line ls
            end).
    unfold Spec.parse_line at 1. now rewrite Hl. }
  assert (scan (Spec.whole_text pieces) = ([], false)) as Hscan.
  { unfold Spec.scan, Spec.complete_lines. rewrite Hnone; [reflexivity|].
    destruct (split_lines (Spec.whole_text pieces)) as [|l ls] using rev_ind;
      [constructor|].
    rewrite removelast_last. now apply Forall_app in Hlines as [Hinit _]. }
  assert (parse_line (Spec.trailing (Spec.whole_text pieces)) = None) as Htrail.
  { unfold Spec.parse_line, Spec.trailing.
    pose proof (split_lines_nonempty (Spec.whole_text pieces)) as Hne.
    destruct (split_lines (Spec.whole_text pieces)) as [|l ls] using rev_ind; [congruence|].
    rewrite last_snoc. cbn. apply Forall_app in Hlines as [_ Hl].
    inversion Hl; subst. now rewrite H1. }
  unfold Framing.last_words in Hy. unfold Framing.ending in Hf.
  rewrite Hscan in Hy, Hf, Hr. cbn [fst snd app] in Hy, Hf, Hr. rewrite Htrail in Hy.
  destruct (read_loop pieces None EmptyString) as [ys rs fs].
  cbn in Hy, Hf, Hr. now subst.
Qed.

Lemma join_lines_cons (l l' : string) (ls : list string) :
  Framing.join_lines (l :: l' :: ls)
  = (l ++ String LF (Framing.join_lines (l' :: ls)))%string.
Proof. reflexivity. Qed.

Lemma join_split_lines (s : string) : Framing.join_lines (split_lines s) = s.
Proof.
  induction s as [|c s IH]; [reflexivity|].
  destruct (Ascii.eqb c LF) eqn:HLF.
  - apply Ascii.eqb_eq in HLF as ->. rewrite split_lines_LF.
    pose proof (split_lines_nonempty s) as Hne.
    destruct (split_lines s) as [|l ls]; [congruence|].
    rewrite join_lines_cons, IH. reflexivity.
  - destruct (split_lines_other c s HLF) as (l & ls & Hsplit & ->). rewrite Hsplit in IH.
    destruct ls as [|l' ls].
    + cbn in IH |- *. now rewrite IH.
    + rewrite join_lines_cons in IH |- *. cbn [append]. now rewrite IH.
Qed.

(** X26: the framing loses nothing: the complete lines of a text and the partial
    line kept in the buffer, joined by line feeds, are the text again. *)
Theorem framing_round_trip (text : string) :
  Framing.join_lines (Spec.complete_lines text ++ [Spec.trailing text]) = text
  /\ Spec.single_line (Spec.trailing text) = true
  /\ Forall (fun l => Spec.single_line l = true) (Spec.complete_lines text).
Proof.
  unfold Spec.complete_lines, Spec.trailing.
  pose proof (split_lines_nonempty text) as Hne.
  pose proof (join_split_lines text) as Hjoin.
  pose proof (trailing_single text) as Htrail. unfold Spec.trailing in Htrail.
  split; [|split; [exact Htrail|]].
  - destruct (split_lines text) as [|l ls] using rev_ind; [congruence|].
    now rewrite removelast_last, last_snoc.
  - clear Hjoin Htrail Hne. induction text as [|c s IH]; [constructor|].
    destruct (Ascii.eqb c LF) eqn:HLF.
    + apply Ascii.eqb_eq in HLF as ->. rewrite split_lines_LF.
      pose proof (split_lines_nonempty s) as Hne.
      destruct (split_lines s) as [|l ls]; [congruence|]. constructor; [reflexivity|].
      exact IH.
    + destruct (split_lines_other c s HLF) as (l & ls & Hsplit & ->). rewrite Hsplit in IH.
      destruct ls as [|l' ls]; [constructor|].
      cbn [removelast] in IH |- *. inversion IH; subst.
      constructor; [|assumption]. cbn. cbn in HLF. now rewrite HLF.
Qed.

End DecoderFacts.

(** ** The connection of [chatStream] *)

Section Connection.

Context {W : Type}.
Variable Math_random : W -> Q * W.
Variable fetch : Request -> W -> Completion Response * W.
Variable console_warn : string -> W -> W.
Variable JSON_parse : string -> option json.
Variable this : PuterClient.
Variable h : Heap.

Local Abbreviation chatStream := (chatStream W Math_random fetch console_warn JSON_parse this h).
Local Abbreviation chatStream_operation := (chatStream_operation W fetch this h).
Local Abbreviation retryOptions := (retryOptions W console_warn this h).

(** X18: when every response is an HTTP error, [chatStream] yields nothing, reads
    nothing and throws the [Error] that carries the status and the body
    text, after max_retries + 1 requests when that error is classified as
    retryable and after a single one when it is not. *)
Theorem chatStream_http_error (status : Z) (errorText : string) messages options
  (st : State W) :
  let N := default DEFAULT_MAX_RETRIES (max_retries (h !!! config this)) in
  let failure :=
    VErr (new_Error ("Puter API error (" ++ of_Z status ++ "): " ++ errorText)) in
  0 <= N ->
  (forall request w, exists response w',
      fetch request w = (Normal response, w')
      /\ ok response = false
      /\ Client.status response = status
      /\ text response = Normal errorText) ->
  exists st',
    chatStream messages options st
    = ({| yielded := []; reads := 0; finish := Throw failure |}, st')
    /\ Z.of_nat (invocations (Trace.new_events st st'))
       = (if isRetryableError failure None then N + 1 else 1).
Proof.
  intros N failure HN Hfetch.
  assert (forall w, exists w',
             chatStream_operation messages options w = (Throw failure, w')) as Hop.
  { intros w. unfold Client.chatStream_operation.
    destruct (Hfetch (driver_call this h "complete" (chat_args messages options true)) w)
      as (response & w' & -> & Hok & Hstatus & Htext).
    rewrite Hok, Htext, Hstatus. cbn. eauto. }
  destruct (withRetry_constant_failure Math_random _ retryOptions failure Hop st HN)
    as (st' & Hrun & Hcount).
  exists st'. split; [|exact Hcount].
  unfold Client.chatStream. now rewrite Hrun.
Qed.

(** X19: when the first response is ok, [chatStream] has sent one request and
    sends no other: the generator is the decoder run on the body, and without
    a body it throws 'No response body for streaming' having yielded
    nothing. *)
Theorem chatStream_after_connection (response : Response) (w' : W) messages options
  (st : State W) :
  0 <= default DEFAULT_MAX_RETRIES (max_retries (h !!! config this)) ->
  fetch (driver_call this h "complete" (chat_args messages options true)) (world st)
  = (Normal response, w') ->
  ok response = true ->
  chatStream messages options st
  = (match body response with
     | Some b => read_loop JSON_parse (pieces b) (read_failure b) EmptyString
     | None =>
         {| yielded := []; reads := 0;
            finish := Throw (VErr (new_Error "No response body for streaming")) |}
     end,
     {| world := w'; log := log st ++ [EvAttempt None] |}).
Proof.
  intros HN Hfetch Hok.
  assert (chatStream_operation messages options (world st) = (Normal response, w')) as Hop.
  { unfold Client.chatStream_operation. now rewrite Hfetch, Hok. }
  unfold Client.chatStream.
  rewrite (withRetry_first_success Math_random _ retryOptions st response w' HN Hop).
  now destruct (body response).
Qed.

End Connection.

(** ** The properties above on concrete inputs *)

Example withRetry_below_zero_run :
  withRetry unit Samples.draw_zero nat Samples.resolves Scenarios.below_zero Samples.start
  = (Throw (VErr (RetryError "Operation failed after 0 attempts" 0
                    (new_Error "Unknown error"))), Samples.start).
Proof. vm_compute. reflexivity. Qed.

Lemma withRetry_negative_witness :
  -1 < 0
  /\ withRetry unit Samples.draw_zero nat Samples.resolves Scenarios.below_zero Samples.start
     = (Throw (VErr (RetryError ("Operation failed after " ++ of_Z (-1 + 1) ++ " attempts")
                       (-1 + 1) (new_Error "Unknown error"))), Samples.start).
Proof.
  split; [lia|].
  apply (withRetry_negative Samples.draw_zero Samples.resolves Scenarios.below_zero
           Samples.start).
  simpl. lia.
Defined.

(** With jitter, which is the default, the draw decides the delay: 750 ms for
    a draw of 0 and 1125 ms for a draw of 0.75. *)
Example withRetry_jitter_run :
  Trace.sleeps
    (log (snd (withRetry unit Samples.draw_zero nat Samples.server_error Scenarios.one_retry
                 Samples.start))) = [750]
  /\ Trace.sleeps
       (log (snd (withRetry unit Samples.draw_high nat Samples.server_error
                    Scenarios.one_retry Samples.start))) = [1125].
Proof. split; vm_compute; reflexivity. Qed.

Lemma withRetry_without_jitter_ignores_chance_witness :
  withRetry unit Samples.draw_zero nat Samples.server_error Samples.two_retries Samples.start
  = withRetry unit Samples.draw_high nat Samples.server_error Samples.two_retries
      Samples.start.
Proof.
  apply (withRetry_without_jitter_ignores_chance Samples.draw_zero Samples.draw_high
           Samples.server_error Samples.two_retries Samples.start).
  reflexivity.
Defined.

Lemma chat_http_error_witness :
  exists st',
    chat unit Samples.draw_zero (Scenarios.answers_error 503 "Service Unavailable")
      Samples.silent Samples.cannot_read Scenarios.retrying_client Scenarios.retrying_store
      probe_messages probe_options Samples.start
    = (Throw (VErr (new_Error "Puter API error (503): Service Unavailable")), st')
    /\ Z.of_nat (invocations (Trace.new_events Samples.start st')) = 3.
Proof.
  destruct (chat_http_error Samples.draw_zero
              (Scenarios.answers_error 503 "Service Unavailable")
              Samples.silent Samples.cannot_read Scenarios.retrying_client
              Scenarios.retrying_store 503 "Service Unavailable"
              probe_messages probe_options Samples.start)
    as (st' & Hrun & Hcount & _).
  - vm_compute. discriminate.
  - intros request w. eexists _, _. repeat split.
  - exists st'. split; [exact Hrun | exact Hcount].
Defined.

Lemma chat_returns_result_witness :
  fst (chat unit Samples.draw_zero (Samples.answers (Samples.reply "OK"))
         Samples.silent Samples.cannot_read Scenarios.retrying_client Scenarios.retrying_store
         probe_messages probe_options Samples.start)
  = Normal (Some (JObj [("message",
                         JObj [("role", JStr "assistant"); ("content", JStr "OK")])])).
Proof.
  destruct (chat_returns_result Samples.draw_zero (Samples.answers (Samples.reply "OK"))
              Samples.silent Samples.cannot_read Scenarios.retrying_client
              Scenarios.retrying_store (Samples.reply "OK")
              {| ok := true; status := 200; text := Normal EmptyString;
                 json_body := Normal (Samples.reply "OK"); body := None |}
              tt probe_messages probe_options Samples.start)
    as (_ & Hfield & _).
  - vm_compute. discriminate.
  - reflexivity.
  - reflexivity.
  - reflexivity.
  - exact (Hfield _ eq_refl).
Defined.

Lemma listModels_unwraps_witness :
  exists result,
    listModels unit Samples.draw_zero (Samples.answers Scenarios.catalog) Samples.silent
      Samples.cannot_read Scenarios.retrying_client Scenarios.retrying_store Samples.start
    = (Normal result, {| world := tt; log := [EvAttempt None] |})
    /\ result = Scenarios.one_model.
Proof.
  destruct (listModels_unwraps Samples.draw_zero (Samples.answers Scenarios.catalog)
              Samples.silent Samples.cannot_read Scenarios.retrying_client
              Scenarios.retrying_store Scenarios.catalog
              {| ok := true; status := 200; text := Normal EmptyString;
                 json_body := Normal Scenarios.catalog; body := None |}
              tt Samples.start)
    as (result & Hrun & Hmodels & _).
  - vm_compute. discriminate.
  - reflexivity.
  - reflexivity.
  - reflexivity.
  - discriminate.
  - exists result. split; [exact Hrun|].
    apply (Hmodels [("models", Scenarios.one_model)] Scenarios.one_model); reflexivity.
Defined.

Lemma listModels_degrades_witness :
  fst (listModels unit Samples.draw_zero (Samples.answers JNull) Samples.silent
         Samples.cannot_read Scenarios.retrying_client Scenarios.retrying_store
         Samples.start)
  = Normal (JArr (map model_object getDefaultModels)).
Proof.
  apply (listModels_degrades Samples.draw_zero (Samples.answers JNull) Samples.silent
           Samples.cannot_read Scenarios.retrying_client Scenarios.retrying_store
           Samples.start).
  intros request w. eexists _, _. split; [reflexivity|]. right. left. reflexivity.
Defined.

Lemma retryFetch_never_resolves_retryable_witness :
  ~ In 200 DEFAULT_retryableStatuses.
Proof.
  apply (retryFetch_never_resolves_retryable Samples.draw_zero fst snd
           (Scenarios.plain_fetch 200 "OK") no_options "https://api.puter.com" None
           Samples.start (200, "OK")).
  vm_compute. reflexivity.
Defined.

Lemma retryFetch_retries_status_witness :
  exists st',
    RetryFetch.retryFetch unit Samples.draw_zero string unit (Z * string) fst snd
      (Scenarios.plain_fetch 503 "Service Unavailable") Samples.two_retries
      "https://api.puter.com" None Samples.start
    = (Throw (VErr (new_Error "HTTP error (503): Service Unavailable")), st')
    /\ Z.of_nat (invocations (Trace.new_events Samples.start st')) = 2 + 1.
Proof.
  apply (retryFetch_retries_status Samples.draw_zero fst snd
           (Scenarios.plain_fetch 503 "Service Unavailable") Samples.two_retries
           "https://api.puter.com" None Samples.start 503 "Service Unavailable").
  - simpl. lia.
  - simpl. tauto.
  - intros w. eexists _, _. repeat split.
Defined.

Lemma chatStream_split_invariant_witness :
  yielded (read_loop Samples.parse_known Scenarios.cut_once None EmptyString)
  = yielded (read_loop Samples.parse_known Scenarios.cut_twice None EmptyString)
  /\ finish (read_loop Samples.parse_known Scenarios.cut_once None EmptyString)
     = finish (read_loop Samples.parse_known Scenarios.cut_twice None EmptyString).
Proof.
  apply (chatStream_split_invariant Samples.parse_known Scenarios.cut_once
           Scenarios.cut_twice None).
  reflexivity.
Defined.

Lemma chatStream_final_is_last_witness : @nil json = [].
Proof.
  apply (chatStream_final_is_last Samples.parse_known
           [(Samples.hello_line ++ String LF (Spec.done_line ++ String LF Samples.world_line))%string]
           None [JObj [("text", JStr "Hel")]] [] Spec.done_chunk).
  - vm_compute. reflexivity.
  - reflexivity.
Defined.

Lemma chatStream_blank_stream_witness :
  read_loop Samples.parse_known [" "; String LF EmptyString; ""] None EmptyString
  = {| yielded := []; reads := 4; finish := Normal tt |}.
Proof.
  apply (chatStream_blank_stream Samples.parse_known [" "; String LF EmptyString; ""]).
  reflexivity.
Defined.

Lemma chatStream_http_error_witness :
  exists st',
    chatStream unit Samples.draw_zero (Scenarios.answers_error 401 "Unauthorized")
      Samples.silent Samples.parse_known Scenarios.retrying_client Scenarios.retrying_store
      probe_messages probe_options Samples.start
    = ({| yielded := []; reads := 0;
          finish := Throw (VErr (new_Error "Puter API error (401): Unauthorized")) |}, st')
    /\ Z.of_nat (invocations (Trace.new_events Samples.start st')) = 1.
Proof.
  apply (chatStream_http_error Samples.draw_zero
           (Scenarios.answers_error 401 "Unauthorized") Samples.silent Samples.parse_known
           Scenarios.retrying_client Scenarios.retrying_store 401 "Unauthorized"
           probe_messages probe_options Samples.start).
  - vm_compute. discriminate.
  - intros request w. eexists _, _. repeat split.
Defined.

Lemma chatStream_after_connection_witness :
  chatStream unit Samples.draw_zero Scenarios.streams Samples.silent Samples.parse_known
    Scenarios.retrying_client Scenarios.retrying_store probe_messages probe_options
    Samples.start
  = (read_loop Samples.parse_known [Samples.hello_line; String LF Spec.done_line] None
       EmptyString,
     {| world := tt; log := [EvAttempt None] |}).
Proof.
  apply (chatStream_after_connection Samples.draw_zero Scenarios.streams Samples.silent
           Samples.parse_known Scenarios.retrying_client Scenarios.retrying_store
           Scenarios.streamed tt probe_messages probe_options Samples.start).
  - vm_compute. discriminate.
  - reflexivity.
  - reflexivity.
Defined.
